(** * Santa's Sleigh Royale: host-authoritative simulation loop and protocol

    Shallow embedding of [types.ts], [constants.ts], the frame loop of
    [components/GameCanvas.tsx], the session callbacks of [App.tsx] and
    [services/geminiService.ts].  JavaScript numbers holding positions and
    times are modelled as rationals [Q]; scores (sums of the integer present
    values, possibly doubled) as [Z]; a [Record<string, T>] as an association
    list in insertion order (the order of [Object.values]). *)

From Stdlib Require Import QArith Qminmax Qround ZArith String List Bool Lia Lqa Permutation Sorted.
Import ListNotations.

Set Warnings "-register-all".
Open Scope Q_scope.

(** ** constants.ts *)

Definition CANVAS_WIDTH : Q := 800.
Definition CANVAS_HEIGHT : Q := 600.
Definition PLAYER_SIZE : Q := 40.
Definition PRESENT_SIZE : Q := 30.
Definition GAME_DURATION : Q := 120.
Definition MOVEMENT_SPEED : Q := 5.

(** ** types.ts *)

Inductive PlayerSkin := SANTA | ELF | REINDEER | SNOWMAN | COOKIE.

(** [frozen?] and [inverted?] are optional fields: [None] is [undefined]. *)
Record Player := mkPlayer {
  pid : string;
  px : Q;
  py : Q;
  score : Z;
  skin : PlayerSkin;
  pname : string;
  isHost : bool;
  vx : Q;
  vy : Q;
  frozen : option bool;
  inverted : option bool
}.

Record Present := mkPresent {
  prid : string;
  prx : Q;
  pry : Q;
  value : Z
}.

Inductive EventType :=
  SPEED_BOOST | SLOWNESS | FREEZE | REVERSE_CONTROLS | DOUBLE_POINTS | NORMAL.

Definition EventType_eqb (a b : EventType) : bool :=
  match a, b with
  | SPEED_BOOST, SPEED_BOOST | SLOWNESS, SLOWNESS | FREEZE, FREEZE
  | REVERSE_CONTROLS, REVERSE_CONTROLS | DOUBLE_POINTS, DOUBLE_POINTS
  | NORMAL, NORMAL => true
  | _, _ => false
  end.

Record ChaosEvent := mkEvent {
  ev_name : string;
  ev_description : string;
  ev_type : EventType;
  duration : Q;
  active : bool
}.

(** [INITIAL_EVENT] of constants.ts. *)
Definition INITIAL_EVENT : ChaosEvent :=
  mkEvent "Silent Night" "Peaceful collecting..." NORMAL 0 false.

Record GameState := mkState {
  players : list (string * Player);
  presents : list Present;
  activeEvent : option ChaosEvent;
  timeLeft : Q;
  winnerId : option string
}.

Inductive NetworkMessage :=
| JOIN_REQUEST (name : string) (sk : PlayerSkin)
| JOIN_ACCEPT (gameState : GameState) (playerId : string)
| INPUT (dx dy : Z)
| GAME_UPDATE (gameState : GameState)
| START_GAME
| GAME_OVER (winnerId : string).

(** Where a message goes: [peerService.sendToHost], [broadcast],
    [sendToPeer]. *)
Inductive Outgoing :=
| ToHost (m : NetworkMessage)
| Broadcast (m : NetworkMessage)
| ToPeer (peer : string) (m : NetworkMessage).

(** ** Records used as maps *)

Fixpoint lookup {A} (k : string) (m : list (string * A)) : option A :=
  match m with
  | [] => None
  | (k', v) :: m' => if String.eqb k k' then Some v else lookup k m'
  end.

(** [{ ...m, [k]: v }] and [m[k] = v]: an existing key keeps its place, a
    new key is appended. *)
Fixpoint insert {A} (k : string) (v : A) (m : list (string * A)) : list (string * A) :=
  match m with
  | [] => [(k, v)]
  | (k', v') :: m' =>
      if String.eqb k k' then (k', v) :: m' else (k', v') :: insert k v m'
  end.

(** [Object.values] *)
Definition values {A} (m : list (string * A)) : list A := map snd m.

Definition set_pos (p : Player) (x y : Q) : Player :=
  mkPlayer (pid p) x y (score p) (skin p) (pname p) (isHost p) (vx p) (vy p)
    (frozen p) (inverted p).

Definition set_score (p : Player) (s : Z) : Player :=
  mkPlayer (pid p) (px p) (py p) s (skin p) (pname p) (isHost p) (vx p) (vy p)
    (frozen p) (inverted p).

Definition with_players (st : GameState) (ps : list (string * Player)) : GameState :=
  mkState ps (presents st) (activeEvent st) (timeLeft st) (winnerId st).

Definition with_presents (st : GameState) (prs : list Present) : GameState :=
  mkState (players st) prs (activeEvent st) (timeLeft st) (winnerId st).

Definition with_event (st : GameState) (e : option ChaosEvent) : GameState :=
  mkState (players st) (presents st) e (timeLeft st) (winnerId st).

Definition with_time (st : GameState) (t : Q) : GameState :=
  mkState (players st) (presents st) (activeEvent st) t (winnerId st).

Definition with_winner (st : GameState) (w : option string) : GameState :=
  mkState (players st) (presents st) (activeEvent st) (timeLeft st) w.

(** ** JavaScript helpers *)

(** Truthiness of an optional boolean field ([!p.frozen]). *)
Definition truthy (b : option bool) : bool :=
  match b with Some true => true | _ => false end.

Definition Qlt_bool (a b : Q) : bool := negb (Qle_bool b a).

(** [state.activeEvent?.type === t] *)
Definition event_is (st : GameState) (t : EventType) : bool :=
  match activeEvent st with
  | Some e => EventType_eqb (ev_type e) t
  | None => false
  end.

(** [Math.max(0, Math.min(hi, v))] *)
Definition clamp (hi v : Q) : Q := Qmax 0 (Qmin hi v).

(** ** GameCanvas.tsx: the frame loop *)

(** [keysPressed.current]: a key never pressed reads [undefined], i.e. false. *)
Definition KeyMap := string -> bool.

(** Section 1 of [gameLoop] (lines 84-98): the local input vector. *)
Definition local_input (st : GameState) (myId : string) (keys : KeyMap) : Z * Z :=
  match lookup myId (players st) with
  | Some me =>
      if negb (truthy (frozen me)) then
        let dy := 0%Z in
        let dy := if keys "ArrowUp"%string || keys "KeyW"%string then (dy - 1)%Z else dy in
        let dy := if keys "ArrowDown"%string || keys "KeyS"%string then (dy + 1)%Z else dy in
        let dx := 0%Z in
        let dx := if keys "ArrowLeft"%string || keys "KeyA"%string then (dx - 1)%Z else dx in
        let dx := if keys "ArrowRight"%string || keys "KeyD"%string then (dx + 1)%Z else dx in
        if event_is st REVERSE_CONTROLS then ((- dx)%Z, (- dy)%Z) else (dx, dy)
      else (0%Z, 0%Z)
  | None => (0%Z, 0%Z)
  end.

(** Lines 104-106. *)
Definition speed_of (st : GameState) : Q :=
  let speed := MOVEMENT_SPEED in
  let speed := if event_is st SPEED_BOOST then speed * 2 else speed in
  if event_is st SLOWNESS then speed * (1#2) else speed.

(** Lines 108-110: the host moves its own player only. *)
Definition host_apply_input (st : GameState) (myId : string) (d : Z * Z) : GameState :=
  let '(dx, dy) := d in
  match lookup myId (players st) with
  | Some p =>
      let speed := speed_of st in
      let x' := clamp (CANVAS_WIDTH - PLAYER_SIZE) (px p + inject_Z dx * speed) in
      let y' := clamp (CANVAS_HEIGHT - PLAYER_SIZE) (py p + inject_Z dy * speed) in
      with_players st (insert myId (set_pos p x' y') (players st))
  | None => st
  end.

(** Lines 129-134: the event timer. *)
Definition tick_event (e : option ChaosEvent) (dt : Q) : option ChaosEvent :=
  match e with
  | Some ev =>
      if active ev then
        let d := duration ev - dt in
        if Qle_bool d 0 then None
        else Some (mkEvent (ev_name ev) (ev_description ev) (ev_type ev) d (active ev))
      else Some ev
  | None => None
  end.

(** Lines 147-161: the [filter] callback run for one player [p]; the score
    of [p] accumulates while the filter runs. *)
Definition hit (p : Player) (pr : Present) : bool :=
  Qlt_bool (px p) (prx pr + PRESENT_SIZE) &&
  Qlt_bool (prx pr) (px p + PLAYER_SIZE) &&
  Qlt_bool (py p) (pry pr + PRESENT_SIZE) &&
  Qlt_bool (pry pr) (py p + PLAYER_SIZE).

Definition points (e : option ChaosEvent) (pr : Present) : Z :=
  match e with
  | Some ev => if EventType_eqb (ev_type ev) DOUBLE_POINTS then (value pr * 2)%Z else value pr
  | None => value pr
  end.

Fixpoint filter_hits (e : option ChaosEvent) (p : Player) (prs : list Present)
  : Player * list Present :=
  match prs with
  | [] => (p, [])
  | pr :: rest =>
      if hit p pr then filter_hits e (set_score p (score p + points e pr)) rest
      else let '(p', rest') := filter_hits e p rest in (p', pr :: rest')
  end.

(** Lines 146-162: [Object.values(state.players).forEach]. *)
Fixpoint collide (e : option ChaosEvent) (ps : list (string * Player)) (prs : list Present)
  : list (string * Player) * list Present :=
  match ps with
  | [] => ([], prs)
  | (k, p) :: rest =>
      let '(p', prs') := filter_hits e p prs in
      let '(rest', prs'') := collide e rest prs' in
      ((k, p') :: rest', prs'')
  end.

(** The values [Math.random()] returns in one tick of the spawner. *)
Record Rolls := mkRolls {
  r_spawn : Q;
  r_id : string;
  r_x : Q;
  r_y : Q;
  r_value : Q
}.

(** Lines 165-174. *)
Definition spawn (r : Rolls) (prs : list Present) : list Present :=
  if Nat.ltb (length prs) 10 then
    if Qlt_bool (r_spawn r) (5#100) then
      prs ++ [mkPresent (r_id r) (r_x r * (CANVAS_WIDTH - PRESENT_SIZE))
                (r_y r * (CANVAS_HEIGHT - PRESENT_SIZE))
                (if Qlt_bool (8#10) (r_value r) then 5%Z else 1%Z)]
    else prs
  else prs.

(** Stable [sort((a, b) => b.score - a.score)]: an element goes before the
    later ones of equal score. *)
Fixpoint insert_by_score (p : Player) (l : list Player) : list Player :=
  match l with
  | [] => [p]
  | q :: l' => if Z.leb (score q) (score p) then p :: l else q :: insert_by_score p l'
  end.

Definition sort_desc (l : list Player) : list Player := fold_right insert_by_score [] l.

(** Lines 261-263. *)
Definition getWinner (ps : list (string * Player)) : string :=
  match sort_desc (values ps) with
  | p :: _ => pid p
  | [] => ""%string
  end.

(** The variables local to the effect that runs the loop. *)
Record LoopVars := mkVars {
  lastTime : Q;
  lastNetworkUpdate : Q;
  lastEventTrigger : Q
}.

Definition set_lastTime (lv : LoopVars) (t : Q) : LoopVars :=
  mkVars t (lastNetworkUpdate lv) (lastEventTrigger lv).
Definition set_lastNetworkUpdate (lv : LoopVars) (t : Q) : LoopVars :=
  mkVars (lastTime lv) t (lastEventTrigger lv).
Definition set_lastEventTrigger (lv : LoopVars) (t : Q) : LoopVars :=
  mkVars (lastTime lv) (lastNetworkUpdate lv) t.

(** One frame: either [onGameOver(winner)] was called and the loop returned
    without scheduling another frame, or the next frame is scheduled;
    [trigger] records a call of [triggerGeminiEvent()]. *)
Inductive LoopResult :=
| LoopOver (st : GameState) (sent : list Outgoing) (winner : string)
| LoopNext (st : GameState) (lv : LoopVars) (sent : list Outgoing) (trigger : bool).

Definition gameLoop (host : bool) (myId : string) (keys : KeyMap)
    (st : GameState) (lv0 : LoopVars) (time : Q) (r : Rolls) : LoopResult :=
  let dt := (time - lastTime lv0) / 1000 in
  let lv := set_lastTime lv0 time in
  let '(dx, dy) := local_input st myId keys in
  let '(st1, sent1) :=
    if negb (Z.eqb dx 0 && Z.eqb dy 0) then
      if host then (host_apply_input st myId (dx, dy), [])
      else (st, [ToHost (INPUT dx dy)])
    else (st, []) in
  if host then
    let st2 := with_time st1 (timeLeft st1 - dt) in
    if Qle_bool (timeLeft st2) 0 then LoopOver st2 sent1 (getWinner (players st2))
    else
      let st3 := with_event st2 (tick_event (activeEvent st2) dt) in
      let timeSinceStart := GAME_DURATION - timeLeft st3 in
      let trig :=
        match activeEvent st3 with None => true | Some _ => false end &&
        Z.ltb 0 (Qfloor timeSinceStart) &&
        Z.eqb (Z.modulo (Qfloor timeSinceStart) 30) 0 &&
        Qlt_bool 5000 (time - lastEventTrigger lv) in
      let lv := if trig then set_lastEventTrigger lv time else lv in
      let '(ps4, prs4) := collide (activeEvent st3) (players st3) (presents st3) in
      let st4 := with_presents (with_players st3 ps4) prs4 in
      let st5 := with_presents st4 (spawn r (presents st4)) in
      if Qlt_bool 40 (time - lastNetworkUpdate lv) then
        LoopNext st5 (set_lastNetworkUpdate lv time) (sent1 ++ [Broadcast (GAME_UPDATE st5)]) trig
      else LoopNext st5 lv sent1 trig
  else LoopNext st1 lv sent1 false.

(** ** App.tsx: the session layer *)

Module GamePhase.
Inductive t := MENU | LOBBY | PLAYING | GAME_OVER.
End GamePhase.

(** On the host, [gameStateRef.current] in [GameCanvas] and the [gameState]
    of [App] are one object: the loop mutates it in place, and every
    [setGameState] of [App] hands the canvas the new object through its
    [initialState] prop.  [host_reachable] below follows that single
    [GameState], which is exact when the canvas switches to the new object
    before the loop runs again.  The loop can also run frames on the old
    object between the [setGameState] and the effect of lines 53-55 that
    switches [gameStateRef]; [ref_switch] (section C7, at the end) models
    the object the loop then continues on. *)

(** [initHost], lines 36-54. *)
Definition initial_state (id name : string) (sk : PlayerSkin) : GameState :=
  mkState [(id, mkPlayer id (CANVAS_WIDTH / 2) (CANVAS_HEIGHT / 2) 0 sk name true 0 0 None None)]
    [] None GAME_DURATION None.

(** The host's [peerService.onMessage], lines 60-101; [rx] and [ry] are the
    two values [Math.random()] returns for a new player.  The [INPUT] branch
    has an empty body. *)
Definition host_onMessage (rx ry : Q) (msg : NetworkMessage) (sourcePeerId : string)
    (gs : option GameState) : option GameState * list Outgoing :=
  match msg with
  | JOIN_REQUEST name sk =>
      match gs with
      | None => (None, [])
      | Some prev =>
          let newPlayer :=
            mkPlayer sourcePeerId (rx * CANVAS_WIDTH) (ry * CANVAS_HEIGHT) 0 sk name
              false 0 0 None None in
          let nextState := with_players prev (insert sourcePeerId newPlayer (players prev)) in
          (Some nextState, [ToPeer sourcePeerId (JOIN_ACCEPT nextState sourcePeerId)])
      end
  | INPUT _ _ => (gs, [])
  | _ => (gs, [])
  end.

(** [startGame], lines 145-149 (host). *)
Definition startGame_sent : list Outgoing := [Broadcast START_GAME].

(** [handleGameOver], lines 179-182: it updates local state only. *)
Definition handleGameOver (w : string) (gs : option GameState)
  : GamePhase.t * option GameState * list Outgoing :=
  (GamePhase.GAME_OVER, match gs with Some prev => Some (with_winner prev (Some w)) | None => None end, []).

(** The state update run by [handleTriggerGemini] once [generateChaosEvent]
    has resolved, lines 163-166. *)
Definition install_event (ev : ChaosEvent) (gs : option GameState) : option GameState :=
  match gs with
  | None => None
  | Some prev => Some (with_event prev (Some ev))
  end.

(** The states the host can reach: the state built by [initHost], then
    joins, frames of the loop, the end of the match and installed events. *)
Inductive host_reachable : GameState -> Prop :=
| hr_init id name sk : host_reachable (initial_state id name sk)
| hr_join st rx ry name sk src st' out :
    host_reachable st ->
    host_onMessage rx ry (JOIN_REQUEST name sk) src (Some st) = (Some st', out) ->
    host_reachable st'
| hr_frame st myId keys lv time r st' lv' sent trig :
    host_reachable st ->
    gameLoop true myId keys st lv time r = LoopNext st' lv' sent trig ->
    host_reachable st'
| hr_over st myId keys lv time r st' sent w :
    host_reachable st ->
    gameLoop true myId keys st lv time r = LoopOver st' sent w ->
    host_reachable (with_winner st' (Some w))
| hr_install st ev :
    host_reachable st ->
    host_reachable (with_event st (Some ev)).

(** ** The loop as a sequence of frames and effect restarts

    The effect that runs [gameLoop] depends on
    [[isHost, myPlayerId, onGameOver, triggerGeminiEvent]].  [App] passes
    [handleGameOver] and [handleTriggerGemini], which are new function values
    on every render of [App]; [App] renders again after each [setGameState],
    for instance when [handleTriggerGemini] installs a fetched chaos event
    (lines 163-166; a join does the same).  The canvas then receives the new
    state object through [initialState], and React cancels the pending
    frame and runs the loop effect again: [lastTime = performance.now()],
    [lastNetworkUpdate = 0], [lastEventTrigger = 0]. *)
Inductive LoopEvent :=
| Frame (time : Q) (keys : KeyMap) (r : Rolls)
| EventInstalled (ev : ChaosEvent) (now : Q).

Definition restart_vars (now : Q) : LoopVars := mkVars now 0 0.

Definition has_snapshot (sent : list Outgoing) : bool :=
  existsb (fun o => match o with Broadcast (GAME_UPDATE _) => true | _ => false end) sent.

(** The wall-clock times at which the host broadcasts a snapshot. *)
Fixpoint broadcast_times (myId : string) (st : GameState) (lv : LoopVars)
    (evs : list LoopEvent) : list Q :=
  match evs with
  | [] => []
  | EventInstalled ev now :: evs' =>
      broadcast_times myId (with_event st (Some ev)) (restart_vars now) evs'
  | Frame time keys r :: evs' =>
      match gameLoop true myId keys st lv time r with
      | LoopOver _ _ _ => []
      | LoopNext st' lv' sent _ =>
          if has_snapshot sent then time :: broadcast_times myId st' lv' evs'
          else broadcast_times myId st' lv' evs'
      end
  end.

(** ** services/geminiService.ts *)










(** ** GameCanvas.tsx: keyboard, client listener, leaderboard *)

(** [handleKeyDown] and [handleKeyUp], lines 59-60: [keysPressed.current[e.code]]
    becomes [true] or [false]. *)
Inductive KeyEvent := KeyDown (code : string) | KeyUp (code : string).

Definition key_code (e : KeyEvent) : string :=
  match e with KeyDown c | KeyUp c => c end.

Definition handle_key (m : list (string * bool)) (e : KeyEvent) : list (string * bool) :=
  match e with
  | KeyDown c => insert c true m
  | KeyUp c => insert c false m
  end.

(** [keysPressed.current] after a sequence of keyboard events, from [{}]. *)
Definition keys_after (evs : list KeyEvent) : list (string * bool) := fold_left handle_key evs [].

(** Reading [keysPressed.current[k]]: a code never seen is [undefined]. *)
Definition key_state (m : list (string * bool)) : KeyMap :=
  fun k => match lookup k m with Some b => b | None => false end.

(** [state.activeEvent?.name || null] and [?.description || null]. *)
Definition name_or_null (e : option ChaosEvent) : option string :=
  match e with
  | Some ev => if String.eqb (ev_name ev) "" then None else Some (ev_name ev)
  | None => None
  end.

Definition desc_or_null (e : option ChaosEvent) : option string :=
  match e with
  | Some ev => if String.eqb (ev_description ev) "" then None else Some (ev_description ev)
  | None => None
  end.

(** The canvas of a client: [gameStateRef.current] and the UI state. *)
Record CanvasView := mkCanvas {
  cv_ref : GameState;
  cv_eventName : option string;
  cv_eventDesc : option string;
  cv_timeLeft : Q
}.

(** The client's [peerService.onMessage] installed by [GameCanvas], lines
    199-214; the second component is the argument of [onGameOver], if it
    was called. *)
Definition canvas_onMessage (msg : NetworkMessage) (cv : CanvasView)
  : CanvasView * option string :=
  match msg with
  | GAME_UPDATE gs =>
      (mkCanvas gs (name_or_null (activeEvent gs)) (desc_or_null (activeEvent gs)) (timeLeft gs),
       None)
  | GAME_OVER w => (cv, Some w)
  | _ => (cv, None)
  end.

(** Lines 235-236: the rows of the leaderboard. *)
Definition leaderboard (st : GameState) : list Player := sort_desc (values (players st)).

(** ** App.tsx: the client side and the end screen *)

Record ClientApp := mkClientApp {
  ca_phase : GamePhase.t;
  ca_gameState : option GameState;
  ca_hostId : string
}.

(** The client's [peerService.onMessage] installed by [joinGame], lines
    127-138. *)
Definition client_onMessage (joinId : string) (msg : NetworkMessage) (a : ClientApp) : ClientApp :=
  match msg with
  | JOIN_ACCEPT gs _ => mkClientApp (ca_phase a) (Some gs) joinId
  | START_GAME => mkClientApp GamePhase.PLAYING (ca_gameState a) (ca_hostId a)
  | GAME_OVER w =>
      let '(ph, gs, _) := handleGameOver w (ca_gameState a) in mkClientApp ph gs (ca_hostId a)
  | _ => a
  end.

(** Once the canvas is mounted, its listener has replaced the one of
    [joinGame] ([peerService.onMessage] holds one function); [onGameOver] is
    [App]'s [handleGameOver]. *)
Definition client_session_step (s : CanvasView * ClientApp) (msg : NetworkMessage)
  : CanvasView * ClientApp :=
  let '(cv, a) := s in
  let '(cv', go) := canvas_onMessage msg cv in
  match go with
  | Some w => let '(ph, gs, _) := handleGameOver w (ca_gameState a) in
              (cv', mkClientApp ph gs (ca_hostId a))
  | None => (cv', a)
  end.

Definition client_session (msgs : list NetworkMessage) (s : CanvasView * ClientApp)
  : CanvasView * ClientApp :=
  fold_left client_session_step msgs s.

(** Lines 321-334: the winner shown on the GAME_OVER screen,
    [gameState.players[gameState.winnerId || '']]: its skin ([None] is the
    ghost), name and score. *)
Definition game_over_view (gs : GameState) : option PlayerSkin * string * Z :=
  match lookup (match winnerId gs with Some w => w | None => ""%string end) (players gs) with
  | Some p => (Some (skin p), pname p, score p)
  | None => (None, "Nobody"%string, 0%Z)
  end.

(** ** services/peerService.ts *)

(** A [DataConnection] as the service reads it: the remote peer id and
    the [open] flag. *)
Record DataConnection := mkConn { conn_peer : string; conn_open : bool }.

(** [peer] is modelled by whether it is non-null. *)
Record PeerService := mkPeerService {
  has_peer : bool;
  connections : list DataConnection;
  hostConnection : option DataConnection
}.

(** A [conn.send(msg)]: the remote peer and the message. *)
Definition Send := (string * NetworkMessage)%type.

(** The [peer.on('connection')] handler, lines 28-32. *)
Definition on_connection (s : PeerService) (c : DataConnection) : PeerService :=
  mkPeerService (has_peer s) (connections s ++ [c]) (hostConnection s).

(** The [conn.on('close')] handler of [setupConnection], lines 64-70. *)
Definition on_close (s : PeerService) (conn : DataConnection) : PeerService :=
  mkPeerService (has_peer s)
    (filter (fun c => negb (String.eqb (conn_peer c) (conn_peer conn))) (connections s))
    (match hostConnection s with
     | Some h => if String.eqb (conn_peer h) (conn_peer conn) then None else Some h
     | None => None
     end).

(** Lines 73-77. *)
Definition broadcast (s : PeerService) (msg : NetworkMessage) : list Send :=
  flat_map (fun c => if conn_open c then [(conn_peer c, msg)] else []) (connections s).

(** Lines 79-83. *)
Definition sendToHost (s : PeerService) (msg : NetworkMessage) : list Send :=
  match hostConnection s with
  | Some c => if conn_open c then [(conn_peer c, msg)] else []
  | None => []
  end.

(** Lines 85-88: [connections.find(c => c.peer === peerId)]. *)
Definition sendToPeer (s : PeerService) (peerId : string) (msg : NetworkMessage) : list Send :=
  match find (fun c => String.eqb (conn_peer c) peerId) (connections s) with
  | Some c => if conn_open c then [(conn_peer c, msg)] else []
  | None => []
  end.

(** What the new connection of [connectToHost] does: it opens, or fails. *)
Inductive ConnEvent := ConnOpened | ConnFailed (err : string).

(** Lines 41-57: the service afterwards and the rejection reason, if the
    promise is rejected. *)
Definition connectToHost (s : PeerService) (hostId : string) (ev : ConnEvent)
  : PeerService * option string :=
  if has_peer s then
    match ev with
    | ConnOpened => (mkPeerService (has_peer s) (connections s) (Some (mkConn hostId true)), None)
    | ConnFailed err => (s, Some err)
    end
  else (s, Some "Peer not initialized"%string).

(** [c.close()] clears the connection's [open] flag. *)
Definition close_conn (c : DataConnection) : DataConnection := mkConn (conn_peer c) false.

(** Lines 90-96: the connections are closed and dropped, the host
    connection is closed but kept, the peer is destroyed. *)
Definition cleanup (s : PeerService) : PeerService :=
  mkPeerService false [] (option_map close_conn (hostConnection s)).

(** * Proofs *)

(** ** Structure of one host frame *)

(** Lines 100-117 on the host. *)
Definition host_input_step (st : GameState) (myId : string) (keys : KeyMap) : GameState :=
  let '(dx, dy) := local_input st myId keys in
  if negb (Z.eqb dx 0 && Z.eqb dy 0) then host_apply_input st myId (dx, dy) else st.

Lemma host_apply_input_fields st myId d :
  presents (host_apply_input st myId d) = presents st /\
  activeEvent (host_apply_input st myId d) = activeEvent st /\
  timeLeft (host_apply_input st myId d) = timeLeft st /\
  winnerId (host_apply_input st myId d) = winnerId st.
Proof.
  destruct d as [dx dy]; unfold host_apply_input.
  destruct (lookup myId (players st)); repeat split; reflexivity.
Qed.

Lemma host_input_step_fields st myId keys :
  presents (host_input_step st myId keys) = presents st /\
  activeEvent (host_input_step st myId keys) = activeEvent st /\
  timeLeft (host_input_step st myId keys) = timeLeft st /\
  winnerId (host_input_step st myId keys) = winnerId st.
Proof.
  unfold host_input_step; destruct (local_input st myId keys) as [dx dy].
  destruct (negb _); [apply host_apply_input_fields | repeat split].
Qed.

Lemma gameLoop_host_over myId keys st lv time r st' sent w :
  gameLoop true myId keys st lv time r = LoopOver st' sent w ->
  let st1 := host_input_step st myId keys in
  let dt := (time - lastTime lv) / 1000 in
  st' = with_time st1 (timeLeft st1 - dt) /\ sent = [] /\
  w = getWinner (players st1) /\ Qle_bool (timeLeft st1 - dt) 0 = true.
Proof.
  intros H st1 dt.
  unfold gameLoop, st1, host_input_step in *.
  destruct (local_input st myId keys) as [dx dy].
  destruct (negb _) eqn:Hmv; simpl in H.
  - destruct (Qle_bool _ 0) eqn:Hle.
    + injection H as <- <- <-; auto.
    + destruct (collide _ _ _); destruct (Qlt_bool 40 _); discriminate.
  - destruct (Qle_bool _ 0) eqn:Hle.
    + injection H as <- <- <-; auto.
    + destruct (collide _ _ _); destruct (Qlt_bool 40 _); discriminate.
Qed.

Ltac simpl_state :=
  cbn [players presents activeEvent timeLeft winnerId with_presents with_players
       with_event with_time with_winner fst snd lastTime lastNetworkUpdate
       lastEventTrigger set_lastNetworkUpdate set_lastEventTrigger set_lastTime] in *.

Lemma lastNetworkUpdate_trig (b : bool) lv t :
  lastNetworkUpdate (if b then set_lastEventTrigger (set_lastTime lv t) t else set_lastTime lv t) =
  lastNetworkUpdate lv.
Proof. destruct b; reflexivity. Qed.

Lemma gameLoop_host_next myId keys st lv time r st' lv' sent trig :
  gameLoop true myId keys st lv time r = LoopNext st' lv' sent trig ->
  let st1 := host_input_step st myId keys in
  let dt := (time - lastTime lv) / 1000 in
  let e3 := tick_event (activeEvent st1) dt in
  Qle_bool (timeLeft st1 - dt) 0 = false /\
  players st' = fst (collide e3 (players st1) (presents st1)) /\
  presents st' = spawn r (snd (collide e3 (players st1) (presents st1))) /\
  activeEvent st' = e3 /\ timeLeft st' = timeLeft st1 - dt /\
  winnerId st' = winnerId st1 /\
  ((sent = [Broadcast (GAME_UPDATE st')] /\ Qlt_bool 40 (time - lastNetworkUpdate lv) = true /\
    lastNetworkUpdate lv' = time) \/
   (sent = [] /\ lastNetworkUpdate lv' = lastNetworkUpdate lv)).
Proof.
  intros H st1 dt e3.
  unfold gameLoop, st1, host_input_step, e3, dt in *.
  destruct (local_input st myId keys) as [dx dy].
  destruct (negb _) eqn:Hmv; cbv beta iota zeta in H;
  [set (s1 := host_apply_input st myId (dx, dy)) in * | set (s1 := st) in *];
  simpl_state;
  (destruct (Qle_bool _ 0) eqn:Hle; [discriminate|]);
  destruct (collide _ _ _) as [ps4 prs4] eqn:Hc;
  rewrite lastNetworkUpdate_trig in H;
  (destruct (Qlt_bool 40 _) eqn:Hb;
   injection H as <- <- <- <-; simpl_state;
   rewrite ?Hc; cbn [fst snd];
   (split; [reflexivity|]); repeat (split; [reflexivity|]);
   [left | right]; repeat split; auto;
   apply lastNetworkUpdate_trig).
Qed.

Lemma gameLoop_host_expire myId keys st lv time r :
  let st1 := host_input_step st myId keys in
  let dt := (time - lastTime lv) / 1000 in
  timeLeft st - dt <= 0 ->
  gameLoop true myId keys st lv time r =
    LoopOver (with_time st1 (timeLeft st - dt)) [] (getWinner (players st1)).
Proof.
  intros st1 dt Hle.
  pose proof (host_input_step_fields st myId keys) as (_ & _ & Ht & _).
  assert (Hb : Qle_bool (timeLeft st - dt) 0 = true) by (apply Qle_bool_iff; exact Hle).
  unfold gameLoop, st1, dt, host_input_step in *.
  destruct (local_input st myId keys) as [dx dy].
  destruct (negb _) eqn:Hmv; simpl in *.
  - rewrite Ht, Hb; reflexivity.
  - rewrite Hb; reflexivity.
Qed.

(** The state a frame leaves behind, whether or not the loop goes on. *)
Definition loop_state (res : LoopResult) : GameState :=
  match res with
  | LoopOver st _ _ => st
  | LoopNext st _ _ _ => st
  end.

Definition pos (p : Player) : Q * Q := (px p, py p).

Definition positions (ps : list (string * Player)) : list (string * (Q * Q)) :=
  map (fun kp => (fst kp, pos (snd kp))) ps.

Lemma lookup_positions k ps :
  lookup k (positions ps) = option_map pos (lookup k ps).
Proof.
  induction ps as [|[k' p] ps IH]; simpl; [reflexivity|].
  destruct (String.eqb k k'); [reflexivity | exact IH].
Qed.

Lemma lookup_insert_ne {A} k k' (v : A) m :
  k <> k' -> lookup k (insert k' v m) = lookup k m.
Proof.
  intros Hne; induction m as [|[j w] m IH]; simpl.
  - destruct (String.eqb k k') eqn:E; [apply String.eqb_eq in E; congruence | reflexivity].
  - destruct (String.eqb k' j) eqn:E1; simpl.
    + apply String.eqb_eq in E1; subst j.
      destruct (String.eqb k k') eqn:E; [apply String.eqb_eq in E; congruence | reflexivity].
    + destruct (String.eqb k j); [reflexivity | exact IH].
Qed.

Lemma filter_hits_pos e p prs : pos (fst (filter_hits e p prs)) = pos p.
Proof.
  revert p; induction prs as [|pr prs IH]; intros p; simpl; [reflexivity|].
  destruct (hit p pr).
  - rewrite IH; reflexivity.
  - specialize (IH p); destruct (filter_hits e p prs); exact IH.
Qed.

Lemma collide_positions e ps prs : positions (fst (collide e ps prs)) = positions ps.
Proof.
  revert prs; induction ps as [|[k p] ps IH]; intros prs; simpl; [reflexivity|].
  pose proof (filter_hits_pos e p prs) as Hp.
  destruct (filter_hits e p prs) as [p' prs'].
  specialize (IH prs'); destruct (collide e ps prs') as [ps' prs''].
  simpl in *; rewrite Hp, IH; reflexivity.
Qed.

Lemma host_input_step_other st myId keys k :
  k <> myId -> lookup k (players (host_input_step st myId keys)) = lookup k (players st).
Proof.
  intros Hne; unfold host_input_step.
  destruct (local_input st myId keys) as [dx dy]; destruct (negb _); [|reflexivity].
  unfold host_apply_input; destruct (lookup myId (players st)); [|reflexivity].
  apply lookup_insert_ne; exact Hne.
Qed.

Lemma host_frame_other_pos myId keys st lv time r k :
  k <> myId ->
  option_map pos (lookup k (players (loop_state (gameLoop true myId keys st lv time r)))) =
  option_map pos (lookup k (players st)).
Proof.
  intros Hne.
  destruct (gameLoop true myId keys st lv time r) as [st' sent w | st' lv' sent trig] eqn:H;
    simpl.
  - apply gameLoop_host_over in H as (-> & _).
    simpl; rewrite host_input_step_other by exact Hne; reflexivity.
  - apply gameLoop_host_next in H as (_ & Hps & _).
    rewrite Hps, <- lookup_positions, collide_positions, lookup_positions.
    rewrite host_input_step_other by exact Hne; reflexivity.
Qed.

(** ** Fixtures: a host ["h"] and one client ["c"] *)

Definition no_keys : KeyMap := fun _ => false.

Definition host_h : Player := mkPlayer "h" 100 100 0 SANTA "Host" true 0 0 None None.
Definition client_c : Player := mkPlayer "c" 300 300 0 ELF "Guest" false 0 0 None None.

Definition two_players : GameState :=
  mkState [("h"%string, host_h); ("c"%string, client_c)] [] None 60 None.

Definition no_spawn : Rolls := mkRolls 1 "z" 0 0 0.

(** ** C1: remote input *)

(** C1 (code_bug).  The host's message handler does nothing with an
    [INPUT] message, and a host frame moves no player other than the host's
    own: a client [k] keeps its position whatever it sends. *)
Theorem C1_remote_input_not_integrated rx ry dx dy myId keys st lv time r k p :
  k <> myId -> lookup k (players st) = Some p ->
  host_onMessage rx ry (INPUT dx dy) k (Some st) = (Some st, []) /\
  option_map pos (lookup k (players (loop_state (gameLoop true myId keys st lv time r)))) =
  Some (pos p).
Proof.
  intros Hne Hk; split; [reflexivity|].
  rewrite host_frame_other_pos by exact Hne; rewrite Hk; reflexivity.
Qed.

Lemma C1_remote_input_not_integrated_witness :
  host_onMessage 0 0 (INPUT 1 0) "c" (Some two_players) = (Some two_players, []) /\
  option_map pos (lookup "c" (players (loop_state
    (gameLoop true "h" no_keys two_players (mkVars 1000 0 0) 1016 no_spawn)))) =
  Some (pos client_c).
Proof.
  apply (C1_remote_input_not_integrated 0 0 1 0 "h" no_keys two_players (mkVars 1000 0 0)
           1016 no_spawn "c" client_c).
  - discriminate.
  - reflexivity.
Defined.

(** ** C2: the end-of-match signal *)

Definition is_game_over (o : Outgoing) : bool :=
  match o with
  | ToHost (GAME_OVER _) | Broadcast (GAME_OVER _) | ToPeer _ (GAME_OVER _) => true
  | _ => false
  end.

Definition loop_sent (res : LoopResult) : list Outgoing :=
  match res with
  | LoopOver _ sent _ => sent
  | LoopNext _ _ sent _ => sent
  end.

(** C2 (code_bug).  No code path of the host sends [GAME_OVER]: neither a
    frame of the loop (including the frame where time runs out), nor the
    host's message handler, nor [startGame], nor [handleGameOver], which
    only updates local state. *)
Theorem C2_host_never_sends_game_over myId keys st lv time r rx ry msg src gs w :
  existsb is_game_over (loop_sent (gameLoop true myId keys st lv time r)) = false /\
  existsb is_game_over (snd (host_onMessage rx ry msg src gs)) = false /\
  existsb is_game_over startGame_sent = false /\
  snd (handleGameOver w gs) = [].
Proof.
  split; [|split; [|split]].
  - destruct (gameLoop true myId keys st lv time r) as [st' sent w' | st' lv' sent trig] eqn:H.
    + apply gameLoop_host_over in H as (_ & -> & _); reflexivity.
    + apply gameLoop_host_next in H as (_ & _ & _ & _ & _ & _ & [(-> & _) | (-> & _)]);
        reflexivity.
  - destruct msg; simpl; try reflexivity.
    destruct gs; reflexivity.
  - reflexivity.
  - reflexivity.
Qed.

(** A match about to end: 0.016 s left, the next frame 20 ms later. *)
Definition ending : GameState :=
  mkState [("h"%string, host_h); ("c"%string, set_score client_c 3)] [] None (16#1000) None.

Definition ending_vars : LoopVars := mkVars 1000 0 0.

Example ending_frame_over :
  gameLoop true "h" no_keys ending ending_vars 1020 no_spawn =
  LoopOver (with_time ending ((16#1000) - (1020 - 1000) / 1000)) [] "c".
Proof. reflexivity. Qed.

(** ** C3: installing a fetched chaos event *)

Definition sample_event : ChaosEvent := mkEvent "Rudolph's Rush" "Fast!" SPEED_BOOST 10 true.

(** C3, counterexample: the match has ended (winner set), and installing a
    fetched event still changes the state. *)
Lemma C3_install_after_end_cex :
  install_event sample_event (Some (with_winner two_players (Some "h"%string))) <>
  Some (with_winner two_players (Some "h"%string)).
Proof. discriminate. Qed.

(** C3 (amended).  The install path only checks that a game state exists:
    after the frame that ends the match and [handleGameOver], an event
    fetch that resolves is installed into the terminal state, which keeps
    its winner and gains the event. *)
Theorem C3_install_after_end myId keys st lv time r st' sent w ev :
  gameLoop true myId keys st lv time r = LoopOver st' sent w ->
  let '(phase, gs, _) := handleGameOver w (Some st') in
  phase = GamePhase.GAME_OVER /\ gs = Some (with_winner st' (Some w)) /\
  install_event ev gs = Some (with_event (with_winner st' (Some w)) (Some ev)) /\
  (forall gs', install_event ev gs' = None <-> gs' = None).
Proof.
  intros _; simpl; repeat split; try reflexivity.
  - destruct gs'; [discriminate | reflexivity].
  - intros ->; reflexivity.
Qed.

Lemma C3_install_after_end_witness :
  let '(phase, gs, _) := handleGameOver "c" (Some (with_time ending ((16#1000) - (1020 - 1000) / 1000))) in
  phase = GamePhase.GAME_OVER /\
  gs = Some (with_winner (with_time ending ((16#1000) - (1020 - 1000) / 1000)) (Some "c"%string)) /\
  install_event sample_event gs =
    Some (with_event (with_winner (with_time ending ((16#1000) - (1020 - 1000) / 1000))
                       (Some "c"%string)) (Some sample_event)) /\
  (forall gs', install_event sample_event gs' = None <-> gs' = None).
Proof.
  exact (C3_install_after_end "h" no_keys ending ending_vars 1020 no_spawn _ [] "c"
           sample_event ending_frame_over).
Defined.

(** ** C4: arena bounds *)

Definition in_bounds (p : Player) : bool :=
  Qle_bool 0 (px p) && Qle_bool (px p) (CANVAS_WIDTH - PLAYER_SIZE) &&
  Qle_bool 0 (py p) && Qle_bool (py p) (CANVAS_HEIGHT - PLAYER_SIZE).

Definition all_in_bounds (st : GameState) : bool := forallb in_bounds (values (players st)).

Lemma clamp_bounds hi v : 0 <= hi -> 0 <= clamp hi v <= hi.
Proof.
  intros Hhi; unfold clamp; split.
  - apply Q.le_max_l.
  - apply Q.max_lub; [exact Hhi | apply Q.le_min_l].
Qed.

Definition joined : GameState :=
  match host_onMessage (99#100) (99#100) (JOIN_REQUEST "Guest" ELF) "c"
          (Some (initial_state "h" "Host" SANTA)) with
  | (Some st, _) => st
  | (None, _) => initial_state "h" "Host" SANTA
  end.

(** C4 (code_bug).  A join places the new player at
    [Math.random() * CANVAS_WIDTH], [Math.random() * CANVAS_HEIGHT]: with
    [Math.random()] = 0.99 the player "c" sits at (792, 594), outside
    [0, 760] x [0, 560], in a reachable state. *)
Theorem C4_join_out_of_bounds :
  host_reachable joined /\
  option_map pos (lookup "c" (players joined)) = Some ((99#100) * 800, (99#100) * 600) /\
  all_in_bounds joined = false.
Proof.
  split; [|split; [reflexivity | reflexivity]].
  eapply hr_join; [apply hr_init | reflexivity].
Qed.

(** ** C5: end of the match and the winner *)

Lemma insert_by_score_head p l :
  exists rest,
    insert_by_score p l =
      match l with
      | [] => [p]
      | q :: _ => if Z.leb (score q) (score p) then p :: rest else q :: rest
      end.
Proof.
  destruct l as [|q l]; simpl.
  - exists []; reflexivity.
  - destruct (Z.leb (score q) (score p)); eexists; reflexivity.
Qed.

(** The head of the stable descending sort is the first element of maximal
    score: everything before it scores strictly less, everything after it
    no more. *)
Lemma sort_desc_head (l : list Player) :
  l <> [] ->
  exists pre w post rest,
    l = pre ++ w :: post /\ sort_desc l = w :: rest /\
    Forall (fun q => (score q < score w)%Z) pre /\
    Forall (fun q => (score q <= score w)%Z) post.
Proof.
  induction l as [|a l IH]; intros Hne; [congruence|].
  destruct l as [|b l].
  - exists [], a, [], []; repeat split; constructor.
  - destruct IH as (pre & w & post & rest & Hl & Hs & Hpre & Hpost); [discriminate|].
    cbn [sort_desc fold_right] in *; unfold sort_desc in Hs; rewrite Hs.
    cbn [insert_by_score].
    destruct (Z.leb (score w) (score a)) eqn:E.
    + apply Z.leb_le in E.
      exists [], a, (b :: l), (w :: rest); split; [reflexivity|]; split; [reflexivity|].
      split; [constructor|].
      rewrite Hl; apply Forall_app; split.
      * eapply Forall_impl; [|exact Hpre]; intros q Hq; simpl in Hq; lia.
      * constructor; [exact E|].
        eapply Forall_impl; [|exact Hpost]; intros q Hq; simpl in Hq; lia.
    + apply Z.leb_gt in E.
      exists (a :: pre), w, post, (insert_by_score a rest).
      split; [rewrite Hl; reflexivity|]; split; [reflexivity|].
      split; [constructor; assumption | exact Hpost].
Qed.

Lemma getWinner_first_max ps :
  values ps <> [] ->
  exists pre w post,
    values ps = pre ++ w :: post /\ getWinner ps = pid w /\
    Forall (fun q => (score q < score w)%Z) pre /\
    Forall (fun q => (score q <= score w)%Z) post.
Proof.
  intros Hne; destruct (sort_desc_head (values ps) Hne) as (pre & w & post & rest & Hl & Hs & H1 & H2).
  exists pre, w, post; unfold getWinner; rewrite Hs; auto.
Qed.

Lemma Q_eq_dec (a b : Q) : {a = b} + {a <> b}.
Proof. decide equality; [apply Pos.eq_dec | apply Z.eq_dec]. Qed.

Lemma Player_eq_dec (a b : Player) : {a = b} + {a <> b}.
Proof.
  decide equality;
    first [ apply string_dec | apply Z.eq_dec | apply Q_eq_dec | apply bool_dec
          | decide equality; apply bool_dec | decide equality ].
Qed.

Lemma getWinner_strict_max ps p :
  In p (values ps) ->
  (forall q, In q (values ps) -> q <> p -> (score q < score p)%Z) ->
  getWinner ps = pid p.
Proof.
  intros Hin Hmax.
  destruct (getWinner_first_max ps) as (pre & w & post & Hl & Hw & H1 & H2);
    [intros E; rewrite E in Hin; destruct Hin|].
  rewrite Hw; f_equal.
  destruct (Player_eq_dec w p) as [|Hne]; [assumption|].
  exfalso.
  assert (Hw_in : In w (values ps)) by (rewrite Hl; apply in_or_app; right; left; reflexivity).
  specialize (Hmax w Hw_in Hne).
  rewrite Hl in Hin; apply in_app_or in Hin as [Hin | [Heq | Hin]].
  - rewrite Forall_forall in H1; specialize (H1 p Hin); lia.
  - congruence.
  - rewrite Forall_forall in H2; specialize (H2 p Hin); lia.
Qed.

(** C5.  When the frame's elapsed time [dt] uses up the remaining time,
    the frame ends the match: [onGameOver] is called, the loop stops, no
    later step of the frame runs (presents and event untouched, nothing
    sent), the remaining time is [<= 0] and [handleGameOver] records the
    winner.  The winner is the player with the strictly highest score when
    there is one, and in general the first player, in the order of
    [Object.values], whose score is maximal: a function of the state. *)
Theorem C5_expiry_and_winner myId keys st lv time r :
  timeLeft st - (time - lastTime lv) / 1000 <= 0 ->
  exists st' w,
    gameLoop true myId keys st lv time r = LoopOver st' [] w /\
    timeLeft st' <= 0 /\
    presents st' = presents st /\ activeEvent st' = activeEvent st /\
    handleGameOver w (Some st') = (GamePhase.GAME_OVER, Some (with_winner st' (Some w)), []) /\
    w = getWinner (players st') /\
    (forall p, In p (values (players st')) ->
       (forall q, In q (values (players st')) -> q <> p -> (score q < score p)%Z) ->
       w = pid p) /\
    (values (players st') <> [] ->
     exists pre pw post,
       values (players st') = pre ++ pw :: post /\ w = pid pw /\
       Forall (fun q => (score q < score pw)%Z) pre /\
       Forall (fun q => (score q <= score pw)%Z) post).
Proof.
  intros Hle.
  pose proof (host_input_step_fields st myId keys) as (Hp & He & _ & _).
  rewrite (gameLoop_host_expire myId keys st lv time r Hle).
  eexists; eexists; split; [reflexivity|].
  cbn [timeLeft presents activeEvent with_time players].
  split; [exact Hle|]; split; [exact Hp|]; split; [exact He|].
  split; [reflexivity|]; split; [reflexivity|]; split.
  - intros p Hin Hmax; apply getWinner_strict_max; assumption.
  - intros Hne; destruct (getWinner_first_max _ Hne) as (pre & pw & post & Hl & Hw & H1 & H2).
    exists pre, pw, post; auto.
Qed.

Lemma C5_expiry_and_winner_witness :
  timeLeft ending - (1020 - lastTime ending_vars) / 1000 <= 0 /\
  exists st' w,
    gameLoop true "h" no_keys ending ending_vars 1020 no_spawn = LoopOver st' [] w /\
    timeLeft st' <= 0 /\
    presents st' = presents ending /\ activeEvent st' = activeEvent ending /\
    handleGameOver w (Some st') = (GamePhase.GAME_OVER, Some (with_winner st' (Some w)), []) /\
    w = getWinner (players st') /\
    (forall p, In p (values (players st')) ->
       (forall q, In q (values (players st')) -> q <> p -> (score q < score p)%Z) ->
       w = pid p) /\
    (values (players st') <> [] ->
     exists pre pw post,
       values (players st') = pre ++ pw :: post /\ w = pid pw /\
       Forall (fun q => (score q < score pw)%Z) pre /\
       Forall (fun q => (score q <= score pw)%Z) post).
Proof.
  assert (H : timeLeft ending - (1020 - lastTime ending_vars) / 1000 <= 0)
    by (apply Qle_bool_iff; reflexivity).
  split; [exact H|].
  exact (C5_expiry_and_winner "h" no_keys ending ending_vars 1020 no_spawn H).
Defined.

(** ** C6: reversed controls and speed *)

(** Lines 88-91: the vector read from the keys, before any event. *)
Definition raw_input (keys : KeyMap) : Z * Z :=
  let dy := 0%Z in
  let dy := if keys "ArrowUp"%string || keys "KeyW"%string then (dy - 1)%Z else dy in
  let dy := if keys "ArrowDown"%string || keys "KeyS"%string then (dy + 1)%Z else dy in
  let dx := 0%Z in
  let dx := if keys "ArrowLeft"%string || keys "KeyA"%string then (dx - 1)%Z else dx in
  let dx := if keys "ArrowRight"%string || keys "KeyD"%string then (dx + 1)%Z else dx in
  (dx, dy).

Lemma raw_input_range keys :
  In (fst (raw_input keys)) [-1; 0; 1]%Z /\ In (snd (raw_input keys)) [-1; 0; 1]%Z.
Proof.
  unfold raw_input.
  destruct (keys "ArrowUp"%string || keys "KeyW"%string),
           (keys "ArrowDown"%string || keys "KeyS"%string),
           (keys "ArrowLeft"%string || keys "KeyA"%string),
           (keys "ArrowRight"%string || keys "KeyD"%string); simpl; tauto.
Qed.

Lemma local_input_raw st myId keys p :
  lookup myId (players st) = Some p -> truthy (frozen p) = false ->
  local_input st myId keys =
    let '(dx, dy) := raw_input keys in
    if event_is st REVERSE_CONTROLS then ((- dx)%Z, (- dy)%Z) else (dx, dy).
Proof.
  intros Hl Hf; unfold local_input; rewrite Hl, Hf; reflexivity.
Qed.

Lemma speed_of_cases st :
  speed_of st =
    if event_is st SPEED_BOOST then 10 else if event_is st SLOWNESS then 5#2 else 5.
Proof.
  unfold speed_of, event_is; destruct (activeEvent st) as [e|]; [|reflexivity].
  destruct (ev_type e); reflexivity.
Qed.

Lemma lookup_insert_eq {A} k (v : A) m : lookup k (insert k v m) = Some v.
Proof.
  induction m as [|[j w] m IH]; cbn [lookup insert].
  - rewrite String.eqb_refl; reflexivity.
  - destruct (String.eqb k j) eqn:E; cbn [lookup].
    + apply String.eqb_eq in E; subst j; rewrite String.eqb_refl; reflexivity.
    + rewrite E; exact IH.
Qed.

(** C6 (amended).  One event is active at a time, so REVERSE_CONTROLS is
    never combined with SPEED_BOOST or SLOWNESS.  For the host's own player
    (not frozen) and the key vector (dx, dy) in {-1,0,1}^2: under
    REVERSE_CONTROLS the position moves by (-dx*5, -dy*5); under
    SPEED_BOOST by (dx*10, dy*10); under SLOWNESS by (dx*2.5, dy*2.5);
    otherwise by (dx*5, dy*5); the result is clamped per axis. *)
Theorem C6_reverse_then_speed st myId keys p :
  lookup myId (players st) = Some p -> truthy (frozen p) = false ->
  let dx := fst (raw_input keys) in
  let dy := snd (raw_input keys) in
  let sx := if event_is st REVERSE_CONTROLS then (- dx)%Z else dx in
  let sy := if event_is st REVERSE_CONTROLS then (- dy)%Z else dy in
  let speed := if event_is st SPEED_BOOST then 10 else if event_is st SLOWNESS then 5#2 else 5 in
  In dx [-1; 0; 1]%Z /\ In dy [-1; 0; 1]%Z /\
  option_map pos (lookup myId (players (host_input_step st myId keys))) =
    Some (if Z.eqb sx 0 && Z.eqb sy 0 then pos p
          else (clamp (CANVAS_WIDTH - PLAYER_SIZE) (px p + inject_Z sx * speed),
                clamp (CANVAS_HEIGHT - PLAYER_SIZE) (py p + inject_Z sy * speed))).
Proof.
  intros Hl Hf dx dy sx sy speed.
  destruct (raw_input_range keys) as [Hx Hy].
  split; [exact Hx|]; split; [exact Hy|].
  unfold host_input_step; rewrite (local_input_raw st myId keys p Hl Hf).
  unfold sx, sy, dx, dy, speed in *; clear sx sy dx dy speed.
  destruct (raw_input keys) as [dx dy]; cbn [fst snd].
  destruct (event_is st REVERSE_CONTROLS);
  (destruct (Z.eqb _ 0 && Z.eqb _ 0); cbn [negb];
   [rewrite Hl; reflexivity
   | unfold host_apply_input; rewrite Hl; simpl players;
     rewrite lookup_insert_eq, speed_of_cases; reflexivity]).
Qed.

Definition right_key : KeyMap := fun k => String.eqb k "ArrowRight".

Lemma C6_reverse_then_speed_witness :
  lookup "h" (players two_players) = Some host_h /\ truthy (frozen host_h) = false /\
  (let st := with_event two_players (Some (mkEvent "Topsy" "Flip" REVERSE_CONTROLS 10 true)) in
   let dx := fst (raw_input right_key) in
   let dy := snd (raw_input right_key) in
   let sx := if event_is st REVERSE_CONTROLS then (- dx)%Z else dx in
   let sy := if event_is st REVERSE_CONTROLS then (- dy)%Z else dy in
   let speed := if event_is st SPEED_BOOST then 10 else if event_is st SLOWNESS then 5#2 else 5 in
   In dx [-1; 0; 1]%Z /\ In dy [-1; 0; 1]%Z /\
   option_map pos (lookup "h" (players (host_input_step st "h" right_key))) =
     Some (if Z.eqb sx 0 && Z.eqb sy 0 then pos host_h
           else (clamp (CANVAS_WIDTH - PLAYER_SIZE) (px host_h + inject_Z sx * speed),
                 clamp (CANVAS_HEIGHT - PLAYER_SIZE) (py host_h + inject_Z sy * speed)))).
Proof.
  split; [reflexivity|]; split; [reflexivity|].
  exact (C6_reverse_then_speed
           (with_event two_players (Some (mkEvent "Topsy" "Flip" REVERSE_CONTROLS 10 true)))
           "h" right_key host_h eq_refl eq_refl).
Defined.

(** C6, counterexample: with input (1, 0) from (100, 100), no active event
    whatsoever takes the host to (100 - 2*5, 100); under REVERSE_CONTROLS
    it goes to (95, 100). *)
Lemma C6_reverse_boost_cex :
  ~ (exists e p', lookup "h" (players (host_input_step (with_event two_players e) "h" right_key))
                   = Some p' /\ px p' == 90 /\ py p' == 100).
Proof.
  intros (e & p' & H & Hx & Hy).
  destruct e as [[n d t du a]|]; [destruct t|];
    vm_compute in H; injection H as <-; vm_compute in Hx; discriminate.
Qed.

(** ** C7: collecting presents *)

(** The index, in [Object.values] order, of the first player whose box
    overlaps [pr]. *)
Fixpoint first_hit (ps : list (string * Player)) (pr : Present) : option nat :=
  match ps with
  | [] => None
  | (_, p) :: ps' => if hit p pr then Some 0%nat else option_map S (first_hit ps' pr)
  end.

Definition unclaimed (ps : list (string * Player)) (pr : Present) : bool :=
  match first_hit ps pr with None => true | Some _ => false end.

Definition claimed_by (ps : list (string * Player)) (i : nat) (pr : Present) : bool :=
  match first_hit ps pr with Some j => Nat.eqb i j | None => false end.

Definition sumZ (l : list Z) : Z := fold_right Z.add 0%Z l.

(** What the [i]-th player is awarded: the points of the presents it is
    the first to overlap. *)
Definition award (e : option ChaosEvent) (ps : list (string * Player)) (prs : list Present)
    (i : nat) : Z :=
  sumZ (map (points e) (filter (claimed_by ps i) prs)).

Fixpoint mapi {A B} (f : nat -> A -> B) (l : list A) : list B :=
  match l with
  | [] => []
  | x :: l' => f 0%nat x :: mapi (fun i => f (S i)) l'
  end.

Lemma mapi_ext {A B} (f g : nat -> A -> B) l :
  (forall i x, f i x = g i x) -> mapi f l = mapi g l.
Proof.
  revert f g; induction l as [|x l IH]; intros f g H; simpl; [reflexivity|].
  rewrite H; f_equal; apply IH; intros; apply H.
Qed.

Lemma nth_error_mapi {A B} (f : nat -> A -> B) l i :
  nth_error (mapi f l) i = option_map (f i) (nth_error l i).
Proof.
  revert f i; induction l as [|x l IH]; intros f [|i]; simpl; try reflexivity.
  apply (IH (fun j => f (S j))).
Qed.

Lemma filter_filter_and {A} (f g : A -> bool) l :
  filter f (filter g l) = filter (fun x => g x && f x) l.
Proof.
  induction l as [|x l IH]; simpl; [reflexivity|].
  destruct (g x); simpl; [destruct (f x); simpl; rewrite IH; reflexivity | exact IH].
Qed.

Lemma filter_ext_eq {A} (f g : A -> bool) l :
  (forall x, f x = g x) -> filter f l = filter g l.
Proof.
  intros H; induction l as [|x l IH]; simpl; [reflexivity|]; rewrite H, IH; reflexivity.
Qed.

Lemma filter_hits_spec e p prs :
  filter_hits e p prs =
    (set_score p (score p + sumZ (map (points e) (filter (hit p) prs))),
     filter (fun pr => negb (hit p pr)) prs).
Proof.
  revert p; induction prs as [|pr prs IH]; intros p; simpl.
  - unfold set_score; rewrite Z.add_0_r; destruct p; reflexivity.
  - destruct (hit p pr) eqn:Hh; simpl.
    + rewrite IH; unfold sumZ; simpl.
      change (hit (set_score p (score p + points e pr))) with (hit p).
      f_equal; unfold set_score; simpl; f_equal; lia.
    + rewrite IH; reflexivity.
Qed.

Lemma collide_spec e ps prs :
  collide e ps prs =
    (mapi (fun i kp => (fst kp, set_score (snd kp) (score (snd kp) + award e ps prs i))) ps,
     filter (unclaimed ps) prs).
Proof.
  revert prs; induction ps as [|[k p] ps IH]; intros prs; simpl.
  - f_equal; symmetry; induction prs as [|pr prs IHp]; simpl; [reflexivity|]; rewrite IHp; reflexivity.
  - rewrite filter_hits_spec, IH; f_equal; [f_equal|].
    + unfold award; rewrite (filter_ext_eq (claimed_by ((k, p) :: ps) 0%nat) (hit p));
        [reflexivity|].
      intros pr; unfold claimed_by; cbn [first_hit]; destruct (hit p pr); [reflexivity|].
      destruct (first_hit ps pr); reflexivity.
    + apply mapi_ext; intros i [k' q]; cbn [fst snd].
      assert (Ha : award e ps (filter (fun pr => negb (hit p pr)) prs) i =
                   award e ((k, p) :: ps) prs (S i)).
      { unfold award; rewrite filter_filter_and; f_equal; f_equal; apply filter_ext_eq.
        intros pr; unfold claimed_by; cbn [first_hit]; destruct (hit p pr); simpl;
          [reflexivity|].
        destruct (first_hit ps pr); reflexivity. }
      rewrite Ha; reflexivity.
    + rewrite filter_filter_and; apply filter_ext_eq; intros pr.
      unfold unclaimed; cbn [first_hit]; destruct (hit p pr); simpl; [reflexivity|].
      destruct (first_hit ps pr); reflexivity.
Qed.

Lemma spawn_cases r l :
  spawn r l = l \/ exists x, spawn r l = l ++ [x] /\ prid x = r_id r.
Proof.
  unfold spawn; destruct (Nat.ltb _ _); [|left; reflexivity].
  destruct (Qlt_bool _ _); [right; eexists; split; reflexivity | left; reflexivity].
Qed.

(** Within one frame of the host, collision removes every present that some
    player overlaps, and only those; each removed present is awarded once,
    to the first overlapping player in the order of [Object.values]; the
    presents of the next frame are the survivors plus at most the one new
    present the spawner creates in this frame. *)
Theorem collect_once_one_frame myId keys st lv time r st' lv' sent trig :
  gameLoop true myId keys st lv time r = LoopNext st' lv' sent trig ->
  let ps := players (host_input_step st myId keys) in
  (exists fresh,
     presents st' = filter (unclaimed ps) (presents st) ++ fresh /\
     (fresh = [] \/ exists x, fresh = [x] /\ prid x = r_id r)) /\
  (forall pr, In pr (presents st) -> unclaimed ps pr = false ->
     In pr (presents st') -> prid pr = r_id r) /\
  (forall i k p, nth_error ps i = Some (k, p) ->
     nth_error (players st') i =
       Some (k, set_score p (score p + award (activeEvent st') ps (presents st) i))).
Proof.
  intros H ps.
  pose proof (host_input_step_fields st myId keys) as (Hpr & _ & _ & _).
  apply gameLoop_host_next in H as (_ & Hps & Hprs & He & _).
  rewrite collide_spec in Hps, Hprs; cbn [fst snd] in Hps, Hprs.
  rewrite Hpr in Hprs; fold ps in Hps, Hprs.
  assert (Hfresh : exists fresh,
     presents st' = filter (unclaimed ps) (presents st) ++ fresh /\
     (fresh = [] \/ exists x, fresh = [x] /\ prid x = r_id r)).
  { destruct (spawn_cases r (filter (unclaimed ps) (presents st))) as [Hs | (x & Hs & Hx)];
      rewrite Hs in Hprs.
    - exists []; rewrite app_nil_r; split; [exact Hprs | left; reflexivity].
    - exists [x]; split; [exact Hprs | right; exists x; auto]. }
  split; [exact Hfresh|]; split.
  - intros pr _ Hcl Hin.
    destruct Hfresh as (fresh & Hf & [-> | (x & -> & Hx)]); rewrite Hf in Hin;
      apply in_app_or in Hin as [Hin | Hin].
    + apply filter_In in Hin as [_ Hu]; congruence.
    + destruct Hin.
    + apply filter_In in Hin as [_ Hu]; congruence.
    + destruct Hin as [<- | []]; exact Hx.
  - intros i k p Hi; rewrite Hps, nth_error_mapi, Hi, Hpr, He; reflexivity.
Qed.

(** Host "h" at (100, 100) and client "c" at (110, 100) both overlap one
    present at (120, 110). *)
Definition crowded : GameState :=
  mkState [("h"%string, host_h); ("c"%string, set_pos client_c 110 100)]
    [mkPresent "p1" 120 110 1] None 60 None.

Lemma collect_once_one_frame_witness :
  match gameLoop true "h" no_keys crowded (mkVars 1000 0 0) 1016 no_spawn with
  | LoopNext st' lv' sent trig =>
      let ps := players (host_input_step crowded "h" no_keys) in
      (exists fresh,
         presents st' = filter (unclaimed ps) (presents crowded) ++ fresh /\
         (fresh = [] \/ exists x, fresh = [x] /\ prid x = r_id no_spawn)) /\
      (forall pr, In pr (presents crowded) -> unclaimed ps pr = false ->
         In pr (presents st') -> prid pr = r_id no_spawn) /\
      (forall i k p, nth_error ps i = Some (k, p) ->
         nth_error (players st') i =
           Some (k, set_score p (score p + award (activeEvent st') ps (presents crowded) i)))
  | LoopOver _ _ _ => False
  end.
Proof.
  remember (gameLoop true "h" no_keys crowded (mkVars 1000 0 0) 1016 no_spawn) as res eqn:H.
  destruct res as [st' sent w | st' lv' sent trig].
  - vm_compute in H; discriminate.
  - exact (collect_once_one_frame "h" no_keys crowded (mkVars 1000 0 0) 1016 no_spawn st' lv' sent trig
             (eq_sym H)).
Defined.

Example crowded_first_player_scores :
  match gameLoop true "h" no_keys crowded (mkVars 1000 0 0) 1016 no_spawn with
  | LoopNext st' _ _ _ =>
      map score (values (players st')) = [1%Z; 0%Z] /\ presents st' = []
  | LoopOver _ _ _ => False
  end.
Proof. vm_compute; split; reflexivity. Qed.

(** ** C8: the event content provider *)







(** ** C9: snapshot cadence *)

(** Each time is more than 40 ms after the one before it, the first one
    more than 40 ms after [last]. *)
Fixpoint spaced (last : Q) (ts : list Q) : Prop :=
  match ts with
  | [] => True
  | t :: ts' => 40 < t - last /\ spaced t ts'
  end.

Definition no_restart (evs : list LoopEvent) : bool :=
  forallb (fun ev => match ev with Frame _ _ _ => true | EventInstalled _ _ => false end) evs.

Lemma Qlt_bool_true a b : Qlt_bool a b = true -> a < b.
Proof.
  unfold Qlt_bool; intros H; apply Qnot_le_lt; intros Hle.
  apply Qle_bool_iff in Hle; rewrite Hle in H; discriminate.
Qed.

(** Within one run of the loop effect, the throttle of lines 177-179 keeps
    consecutive snapshots more than 40 ms apart. *)
Lemma broadcast_spaced_one_run myId st lv evs :
  no_restart evs = true -> spaced (lastNetworkUpdate lv) (broadcast_times myId st lv evs).
Proof.
  revert st lv; induction evs as [|[time keys r | ev now] evs IH]; intros st lv Hn;
    simpl in *; [exact I | | discriminate].
  destruct (gameLoop true myId keys st lv time r) as [st' sent w | st' lv' sent trig] eqn:H;
    [exact I|].
  apply gameLoop_host_next in H as (_ & _ & _ & _ & _ & _ & [(-> & Hb & Hl) | (-> & Hl)]);
    simpl.
  - split; [apply Qlt_bool_true; exact Hb|].
    rewrite <- Hl; apply IH; exact Hn.
  - rewrite <- Hl; apply IH; exact Hn.
Qed.

(** C9 (code_bug).  A snapshot at 1000 ms; a chaos event installed at
    1005 ms restarts the loop effect; its first frame at 1016 ms broadcasts
    again, 16 ms after the previous snapshot. *)
Theorem C9_restart_breaks_throttle :
  broadcast_times "h" two_players (mkVars 984 0 0)
    [Frame 1000 no_keys no_spawn; EventInstalled sample_event 1005; Frame 1016 no_keys no_spawn]
  = [1000; 1016] /\ 1016 - 1000 < 40.
Proof.
  split; [vm_compute; reflexivity | apply Qlt_bool_true; reflexivity].
Qed.

(** ** C10: the [frozen] and [inverted] flags *)

Definition flags_unset (p : Player) : Prop := frozen p = None /\ inverted p = None.

Lemma lookup_in_values {A} k (v : A) m : lookup k m = Some v -> In v (values m).
Proof.
  induction m as [|[j w] m IH]; simpl; [discriminate|].
  destruct (String.eqb k j); [intros [= <-]; left; reflexivity | intros H; right; auto].
Qed.

Lemma Forall_values_insert {A} (P : A -> Prop) k v m :
  Forall P (values m) -> P v -> Forall P (values (insert k v m)).
Proof.
  intros Hm Hv; induction m as [|[j w] m IH]; simpl in *.
  - constructor; [exact Hv | constructor].
  - inversion Hm; subst.
    destruct (String.eqb k j); simpl; constructor; auto.
Qed.

Lemma host_input_step_flags st myId keys :
  Forall flags_unset (values (players st)) ->
  Forall flags_unset (values (players (host_input_step st myId keys))).
Proof.
  intros Hf; unfold host_input_step.
  destruct (local_input st myId keys) as [dx dy]; destruct (negb _); [|exact Hf].
  unfold host_apply_input; destruct (lookup myId (players st)) as [p|] eqn:Hl; [|exact Hf].
  simpl; apply Forall_values_insert; [exact Hf|].
  apply lookup_in_values in Hl; rewrite Forall_forall in Hf; apply Hf in Hl.
  exact Hl.
Qed.

Lemma collide_flags e ps prs :
  Forall flags_unset (values ps) -> Forall flags_unset (values (fst (collide e ps prs))).
Proof.
  revert prs; induction ps as [|[k p] ps IH]; intros prs Hf; simpl in *; [constructor|].
  inversion Hf; subst.
  rewrite filter_hits_spec.
  destruct (collide e ps _) as [rest prs''] eqn:Hc.
  simpl; constructor; [exact H1|].
  specialize (IH (filter (fun pr => negb (hit p pr)) prs) H2); rewrite Hc in IH; exact IH.
Qed.

Lemma reachable_flags_unset st :
  host_reachable st -> Forall flags_unset (values (players st)).
Proof.
  induction 1 as [id name sk | st rx ry name sk src st' out _ IH Hj
                 | st myId keys lv time r st' lv' sent trig _ IH Hg
                 | st myId keys lv time r st' sent w _ IH Hg | st ev _ IH].
  - constructor; [split; reflexivity | constructor].
  - simpl in Hj; injection Hj as <- _; simpl.
    apply Forall_values_insert; [exact IH | split; reflexivity].
  - apply gameLoop_host_next in Hg as (_ & Hps & _).
    rewrite Hps; apply collide_flags, host_input_step_flags, IH.
  - apply gameLoop_host_over in Hg as (-> & _); simpl.
    apply host_input_step_flags, IH.
  - exact IH.
Qed.

Lemma host_input_step_players_eq st st2 myId keys :
  players st = players st2 -> local_input st myId keys = local_input st2 myId keys ->
  speed_of st = speed_of st2 ->
  players (host_input_step st myId keys) = players (host_input_step st2 myId keys).
Proof.
  intros Hp Hl Hs; unfold host_input_step; rewrite Hl.
  destruct (local_input st2 myId keys) as [dx dy]; destruct (negb _); [|exact Hp].
  unfold host_apply_input; rewrite Hp, Hs.
  destruct (lookup myId (players st2)); [reflexivity | exact Hp].
Qed.

Lemma points_freeze e pr : ev_type e = FREEZE -> points (Some e) pr = points None pr.
Proof. intros Ht; unfold points; rewrite Ht; reflexivity. Qed.

(** C10.  In every state the host can reach, no player has [frozen] or
    [inverted] set (both stay [undefined]); and a FREEZE event changes
    neither the host's movement nor the scores of a collision: the result
    is the one with no active event. *)
Theorem C10_flags_never_set st :
  host_reachable st ->
  Forall (fun p => frozen p = None /\ inverted p = None) (values (players st)) /\
  (forall e myId keys, ev_type e = FREEZE ->
     players (host_input_step (with_event st (Some e)) myId keys) =
     players (host_input_step (with_event st None) myId keys)) /\
  (forall e ps prs, ev_type e = FREEZE -> collide (Some e) ps prs = collide None ps prs).
Proof.
  intros Hr; split; [exact (reachable_flags_unset st Hr)|]; split.
  - intros [n d t du a] myId keys Ht; simpl in Ht; subst t.
    apply host_input_step_players_eq; [reflexivity | | reflexivity].
    unfold local_input; cbn [players with_event].
    destruct (lookup myId (players st)) as [p|]; reflexivity.
  - intros e ps prs Ht; rewrite !collide_spec.
    unfold award; f_equal.
    apply mapi_ext; intros i kp; do 4 f_equal.
    apply map_ext; intros pr; apply points_freeze, Ht.
Qed.

Lemma C10_flags_never_set_witness :
  Forall (fun p => frozen p = None /\ inverted p = None)
    (values (players (initial_state "h" "Host" SANTA))) /\
  (forall e myId keys, ev_type e = FREEZE ->
     players (host_input_step (with_event (initial_state "h" "Host" SANTA) (Some e)) myId keys) =
     players (host_input_step (with_event (initial_state "h" "Host" SANTA) None) myId keys)) /\
  (forall e ps prs, ev_type e = FREEZE -> collide (Some e) ps prs = collide None ps prs).
Proof.
  exact (C10_flags_never_set (initial_state "h" "Host" SANTA) (hr_init "h" "Host" SANTA)).
Defined.

(** * Further properties of the code *)

(** ** The leaderboard *)

Lemma insert_by_score_perm p l : Permutation (insert_by_score p l) (p :: l).
Proof.
  induction l as [|q l IH]; simpl; [reflexivity|].
  destruct (Z.leb (score q) (score p)); [reflexivity|].
  eapply perm_trans; [apply perm_skip, IH | apply perm_swap].
Qed.

Lemma sort_desc_perm l : Permutation (sort_desc l) l.
Proof.
  induction l as [|a l IH]; simpl; [reflexivity|].
  unfold sort_desc in *; simpl.
  eapply perm_trans; [apply insert_by_score_perm | apply perm_skip, IH].
Qed.

Definition score_desc (a b : Player) : Prop := (score b <= score a)%Z.

Lemma insert_by_score_sorted p l : Sorted score_desc l -> Sorted score_desc (insert_by_score p l).
Proof.
  induction l as [|q l IH]; intros Hs; simpl.
  - constructor; constructor.
  - destruct (Z.leb (score q) (score p)) eqn:E.
    + apply Z.leb_le in E; constructor; [exact Hs | constructor; exact E].
    + apply Z.leb_gt in E; apply Sorted_inv in Hs as [Hl Hh].
      constructor; [apply IH, Hl|].
      destruct l as [|r l]; simpl.
      * constructor; unfold score_desc; lia.
      * destruct (Z.leb (score r) (score p)); constructor; unfold score_desc; [lia|].
        inversion Hh; assumption.
Qed.

Lemma sort_desc_sorted l : Sorted score_desc (sort_desc l).
Proof.
  induction l as [|a l IH]; [constructor|].
  unfold sort_desc in *; simpl; apply insert_by_score_sorted, IH.
Qed.

Lemma insert_by_score_filter s p l :
  filter (fun q => Z.eqb (score q) s) (insert_by_score p l) =
  filter (fun q => Z.eqb (score q) s) (p :: l).
Proof.
  induction l as [|q l IH]; simpl; [reflexivity|].
  destruct (Z.leb (score q) (score p)) eqn:E; [reflexivity|].
  apply Z.leb_gt in E; simpl; rewrite IH; simpl.
  destruct (Z.eqb (score p) s) eqn:Ep, (Z.eqb (score q) s) eqn:Eq; try reflexivity.
  apply Z.eqb_eq in Ep, Eq; lia.
Qed.

Lemma sort_desc_filter s l :
  filter (fun q => Z.eqb (score q) s) (sort_desc l) = filter (fun q => Z.eqb (score q) s) l.
Proof.
  induction l as [|a l IH]; [reflexivity|].
  unfold sort_desc in *; simpl; rewrite insert_by_score_filter; simpl; rewrite IH; reflexivity.
Qed.

(** X1.  The leaderboard lists every player exactly once, by non-increasing
    score, and players of equal score keep their order in [Object.values]. *)
Theorem leaderboard_sorted_stable st :
  Permutation (leaderboard st) (values (players st)) /\
  Sorted (fun a b => (score b <= score a)%Z) (leaderboard st) /\
  (forall s, filter (fun p => Z.eqb (score p) s) (leaderboard st) =
             filter (fun p => Z.eqb (score p) s) (values (players st))).
Proof.
  split; [apply sort_desc_perm|]; split; [apply sort_desc_sorted|].
  intros s; apply sort_desc_filter.
Qed.

(** ** Collision bookkeeping *)

Definition total_score (ps : list (string * Player)) : Z := sumZ (map score (values ps)).

Lemma sumZ_filter_split {A} (f : A -> Z) (g : A -> bool) l :
  sumZ (map f l) = (sumZ (map f (filter g l)) + sumZ (map f (filter (fun x => negb (g x)) l)))%Z.
Proof.
  induction l as [|a l IH]; [reflexivity|].
  unfold sumZ in *; simpl; destruct (g a); simpl; lia.
Qed.

(** X2.  Collision keeps the player ids and their order, and the points
    of the presents it removes are exactly the points the players gain:
    total score plus the points still on the board is unchanged. *)
Theorem collide_conserves_points e ps prs :
  let '(ps', prs') := collide e ps prs in
  map fst ps' = map fst ps /\
  (total_score ps' + sumZ (map (points e) prs') = total_score ps + sumZ (map (points e) prs))%Z.
Proof.
  revert prs; induction ps as [|[k p] ps IH]; intros prs; simpl; [split; reflexivity|].
  rewrite filter_hits_spec.
  specialize (IH (filter (fun pr => negb (hit p pr)) prs)).
  destruct (collide e ps _) as [rest prs''] eqn:Hc.
  destruct IH as [Hk Hs]; split; [simpl; rewrite Hk; reflexivity|].
  rewrite (sumZ_filter_split (points e) (hit p) prs).
  unfold total_score, values, sumZ in *; simpl in *; lia.
Qed.

(** ** The keyboard *)

Lemma key_state_snoc evs e k :
  key_state (keys_after (evs ++ [e])) k =
    if String.eqb (key_code e) k then match e with KeyDown _ => true | KeyUp _ => false end
    else key_state (keys_after evs) k.
Proof.
  unfold keys_after, key_state; rewrite fold_left_app; cbn [fold_left].
  destruct e as [c|c]; cbn [handle_key key_code]; destruct (String.eqb c k) eqn:E;
    try (apply String.eqb_eq in E; subst; rewrite lookup_insert_eq; reflexivity);
    (rewrite lookup_insert_ne; [reflexivity|]; intros ->; rewrite String.eqb_refl in E; discriminate).
Qed.

Lemma snoc_split {A} (evs : list A) e pre x post :
  evs ++ [e] = pre ++ x :: post ->
  (post = [] /\ x = e /\ evs = pre) \/ (exists post', post = post' ++ [e] /\ evs = pre ++ x :: post').
Proof.
  intros H; induction post as [|y post' _] using rev_ind.
  - left; apply app_inj_tail in H as [-> ->]; auto.
  - right; exists post'.
    rewrite app_comm_cons, app_assoc in H; apply app_inj_tail in H as [-> ->]; auto.
Qed.

(** X3.  [keysPressed.current[k]] is true exactly when the last keyboard
    event with code [k] was a keydown; the input vector is (right - left,
    down - up), where each direction is pressed through its arrow key or
    its WASD key. *)
Theorem keyboard_input evs k :
  (key_state (keys_after evs) k = true <->
   exists pre post, evs = pre ++ KeyDown k :: post /\ Forall (fun e => key_code e <> k) post) /\
  (forall keys : KeyMap,
     raw_input keys =
       ((if keys "ArrowRight"%string || keys "KeyD"%string then 1 else 0) -
        (if keys "ArrowLeft"%string || keys "KeyA"%string then 1 else 0),
        (if keys "ArrowDown"%string || keys "KeyS"%string then 1 else 0) -
        (if keys "ArrowUp"%string || keys "KeyW"%string then 1 else 0))%Z).
Proof.
  split.
  - induction evs as [|e evs IH] using rev_ind.
    + split; [discriminate|]; intros (pre & post & H & _).
      destruct (app_cons_not_nil _ _ _ H).
    + rewrite key_state_snoc.
      destruct (String.eqb (key_code e) k) eqn:E.
      * apply String.eqb_eq in E.
        destruct e as [c|c]; cbn [key_code] in E; subst c.
        -- split; [intros _; exists evs, []; split; [reflexivity | constructor] | reflexivity].
        -- split; [discriminate|]; intros (pre & post & H & Hf).
           apply snoc_split in H as [(-> & Hx & _) | (post' & -> & _)]; [discriminate|].
           apply Forall_app in Hf as [_ Hf]; inversion Hf; subst; cbn [key_code] in *; congruence.
      * assert (Hne : key_code e <> k) by (intros <-; rewrite String.eqb_refl in E; discriminate).
        rewrite IH; split.
        -- intros (pre & post & -> & Hf); exists pre, (post ++ [e]).
           split; [rewrite <- app_assoc; reflexivity|].
           apply Forall_app; split; [exact Hf | constructor; [exact Hne | constructor]].
        -- intros (pre & post & H & Hf).
           apply snoc_split in H as [(-> & <- & _) | (post' & -> & Hev)]; [cbn in Hne; congruence|].
           exists pre, post'; split; [exact Hev|].
           apply Forall_app in Hf as [Hf _]; exact Hf.
  - intros keys; unfold raw_input.
    destruct (keys "ArrowUp"%string || keys "KeyW"%string),
             (keys "ArrowDown"%string || keys "KeyS"%string),
             (keys "ArrowLeft"%string || keys "KeyA"%string),
             (keys "ArrowRight"%string || keys "KeyD"%string); reflexivity.
Qed.

(** ** Players stored under their own ids *)

Lemma lookup_In {A} k (v : A) m : lookup k m = Some v -> In (k, v) m.
Proof.
  induction m as [|[j w] m IH]; simpl; [discriminate|].
  destruct (String.eqb k j) eqn:E.
  - apply String.eqb_eq in E; subst; intros [= <-]; left; reflexivity.
  - intros H; right; auto.
Qed.

Lemma map_fst_insert {A} k (v : A) m :
  (In k (map fst m) /\ map fst (insert k v m) = map fst m) \/
  (~ In k (map fst m) /\ map fst (insert k v m) = map fst m ++ [k]).
Proof.
  induction m as [|[j w] m IH]; simpl.
  - right; split; [tauto | reflexivity].
  - destruct (String.eqb k j) eqn:E.
    + apply String.eqb_eq in E; subst; left; split; [left; reflexivity | reflexivity].
    + assert (Hne : k <> j) by (intros ->; rewrite String.eqb_refl in E; discriminate).
      destruct IH as [[Hi He] | [Hi He]]; simpl; rewrite He.
      * left; split; [right; exact Hi | reflexivity].
      * right; split; [intros [H'|H']; [congruence | contradiction] | reflexivity].
Qed.

Definition keys_ok (ps : list (string * Player)) : Prop :=
  ps <> [] /\ NoDup (map fst ps) /\ Forall (fun kp => pid (snd kp) = fst kp) ps.

Lemma insert_not_nil {A} k (v : A) m : insert k v m <> [].
Proof. destruct m as [|[j w] m]; simpl; [discriminate|]; destruct (String.eqb k j); discriminate. Qed.

Lemma keys_ok_insert k v m : keys_ok m -> pid v = k -> keys_ok (insert k v m).
Proof.
  intros (Hne & Hnd & Hf) Hv; split; [apply insert_not_nil|]; split.
  - destruct (map_fst_insert k v m) as [[_ ->] | [Hi ->]]; [exact Hnd|].
    apply NoDup_app; [exact Hnd | constructor; [intros [] | constructor]|].
    intros a Ha [<- | []]; contradiction.
  - clear Hne Hnd; induction m as [|[j w] m IH]; simpl; [constructor; [exact Hv | constructor]|].
    apply Forall_cons_iff in Hf as [Hjw Hm].
    destruct (String.eqb k j) eqn:E; constructor; simpl in *; auto.
    apply String.eqb_eq in E; congruence.
Qed.

Definition kpids (ps : list (string * Player)) : list (string * string) :=
  map (fun kp => (fst kp, pid (snd kp))) ps.

Lemma keys_ok_kpids ps ps' : kpids ps' = kpids ps -> keys_ok ps -> keys_ok ps'.
Proof.
  intros Hk (Hne & Hnd & Hf).
  assert (Hfst : map fst ps' = map fst ps).
  { apply (f_equal (map fst)) in Hk; unfold kpids in Hk; rewrite !map_map in Hk; exact Hk. }
  split; [|split].
  - intros ->; destruct ps; [contradiction | discriminate].
  - rewrite Hfst; exact Hnd.
  - assert (Hg : Forall (fun ab => snd ab = fst ab) (kpids ps)).
    { unfold kpids; apply Forall_map; exact Hf. }
    rewrite <- Hk in Hg; unfold kpids in Hg; apply Forall_map in Hg; exact Hg.
Qed.

Lemma collide_kpids e ps prs : kpids (fst (collide e ps prs)) = kpids ps.
Proof.
  revert prs; induction ps as [|[k p] ps IH]; intros prs; simpl; [reflexivity|].
  rewrite filter_hits_spec.
  specialize (IH (filter (fun pr => negb (hit p pr)) prs)).
  destruct (collide e ps _) as [ps' prs'']; simpl in *; rewrite IH; reflexivity.
Qed.

Lemma collide_keys e ps prs : map fst (fst (collide e ps prs)) = map fst ps.
Proof.
  pose proof (collide_kpids e ps prs) as H.
  apply (f_equal (map fst)) in H; unfold kpids in H; rewrite !map_map in H; exact H.
Qed.

Lemma kpids_insert k v p m :
  lookup k m = Some p -> pid v = pid p -> kpids (insert k v m) = kpids m.
Proof.
  induction m as [|[j w] m IH]; simpl; [discriminate|].
  destruct (String.eqb k j); [intros [= ->] Hv; simpl; rewrite Hv; reflexivity|].
  intros Hl Hv; simpl; rewrite (IH Hl Hv); reflexivity.
Qed.

Lemma host_input_step_kpids st myId keys :
  kpids (players (host_input_step st myId keys)) = kpids (players st).
Proof.
  unfold host_input_step; destruct (local_input st myId keys) as [dx dy]; destruct (negb _);
    [|reflexivity].
  unfold host_apply_input; destruct (lookup myId (players st)) as [p|] eqn:Hl; [|reflexivity].
  cbn [players with_players]; apply (kpids_insert _ _ p); [exact Hl | reflexivity].
Qed.

Lemma host_input_step_keys st myId keys :
  map fst (players (host_input_step st myId keys)) = map fst (players st).
Proof.
  pose proof (host_input_step_kpids st myId keys) as H.
  apply (f_equal (map fst)) in H; unfold kpids in H; rewrite !map_map in H; exact H.
Qed.

Lemma reachable_keyed st : host_reachable st -> keys_ok (players st).
Proof.
  induction 1 as [id name sk | st rx ry name sk src st' out _ IH Hj
                 | st myId keys lv time r st' lv' sent trig _ IH Hg
                 | st myId keys lv time r st' sent w _ IH Hg | st ev _ IH].
  - split; [discriminate|]; split; [constructor; [intros [] | constructor]|].
    constructor; [reflexivity | constructor].
  - simpl in Hj; injection Hj as <- _; simpl.
    apply keys_ok_insert; [exact IH | reflexivity].
  - apply gameLoop_host_next in Hg as (_ & Hps & _).
    apply (keys_ok_kpids (players st)); [|exact IH].
    rewrite Hps, collide_kpids, host_input_step_kpids; reflexivity.
  - apply gameLoop_host_over in Hg as (-> & _); simpl.
    apply (keys_ok_kpids (players st)); [apply host_input_step_kpids | exact IH].
  - exact IH.
Qed.

(** X4.  In every reachable host state the players record is non-empty,
    has no duplicate key, and stores every player under its own id. *)
Theorem reachable_players_keyed st :
  host_reachable st ->
  players st <> [] /\ NoDup (map fst (players st)) /\
  Forall (fun kp => pid (snd kp) = fst kp) (players st).
Proof. exact (reachable_keyed st). Qed.

Lemma reachable_players_keyed_witness :
  players (initial_state "h" "Host" SANTA) <> [] /\
  NoDup (map fst (players (initial_state "h" "Host" SANTA))) /\
  Forall (fun kp => pid (snd kp) = fst kp) (players (initial_state "h" "Host" SANTA)).
Proof. exact (reachable_players_keyed _ (hr_init "h" "Host" SANTA)). Defined.

(** ** Presents and scores in reachable states *)

Definition board_ok (st : GameState) : Prop :=
  (length (presents st) <= 10)%nat /\
  Forall (fun pr => value pr = 1%Z \/ value pr = 5%Z) (presents st) /\
  Forall (fun p => (0 <= score p)%Z) (values (players st)).

Lemma points_nonneg e pr : (0 <= value pr)%Z -> (0 <= points e pr)%Z.
Proof.
  intros H; unfold points; destruct e as [ev|]; [|exact H].
  destruct (EventType_eqb (ev_type ev) DOUBLE_POINTS); lia.
Qed.

Lemma sumZ_points_nonneg e l :
  Forall (fun pr => (0 <= value pr)%Z) l -> (0 <= sumZ (map (points e) l))%Z.
Proof.
  induction 1 as [|pr l Hpr _ IH]; [reflexivity|].
  unfold sumZ in *; simpl; pose proof (points_nonneg e pr Hpr); lia.
Qed.

Lemma Forall_filter_keep {A} (P : A -> Prop) f l : Forall P l -> Forall P (filter f l).
Proof.
  intros H; apply Forall_forall; intros x Hx; apply filter_In in Hx as [Hx _].
  rewrite Forall_forall in H; apply H, Hx.
Qed.

Lemma filter_length {A} (f : A -> bool) l : (length (filter f l) <= length l)%nat.
Proof. induction l as [|a l IH]; simpl; [lia|]; destruct (f a); simpl; lia. Qed.

Lemma collide_scores_nonneg e ps prs :
  Forall (fun pr => (0 <= value pr)%Z) prs ->
  Forall (fun p => (0 <= score p)%Z) (values ps) ->
  Forall (fun p => (0 <= score p)%Z) (values (fst (collide e ps prs))).
Proof.
  revert prs; induction ps as [|[k p] ps IH]; intros prs Hv Hs; simpl in *; [constructor|].
  inversion Hs as [|? ? Hp Hps]; subst.
  rewrite filter_hits_spec.
  specialize (IH (filter (fun pr => negb (hit p pr)) prs) (Forall_filter_keep _ _ _ Hv) Hps).
  destruct (collide e ps _) as [rest prs'']; simpl in *; constructor; [|exact IH].
  simpl; pose proof (sumZ_points_nonneg e (filter (hit p) prs) (Forall_filter_keep _ _ _ Hv)); lia.
Qed.

Lemma host_input_step_values (P : Player -> Prop) st myId keys :
  (forall p x y, P p -> P (set_pos p x y)) ->
  Forall P (values (players st)) -> Forall P (values (players (host_input_step st myId keys))).
Proof.
  intros HP Hf; unfold host_input_step.
  destruct (local_input st myId keys) as [dx dy]; destruct (negb _); [|exact Hf].
  unfold host_apply_input; destruct (lookup myId (players st)) as [p|] eqn:Hl; [|exact Hf].
  cbn [players with_players]; apply Forall_values_insert; [exact Hf|].
  apply HP; apply lookup_in_values in Hl; rewrite Forall_forall in Hf; apply Hf, Hl.
Qed.

Lemma spawn_ok r l :
  (length l <= 10)%nat -> Forall (fun pr => value pr = 1%Z \/ value pr = 5%Z) l ->
  (length (spawn r l) <= 10)%nat /\ Forall (fun pr => value pr = 1%Z \/ value pr = 5%Z) (spawn r l).
Proof.
  intros Hl Hv; unfold spawn.
  destruct (Nat.ltb (length l) 10) eqn:E; [|auto].
  apply Nat.ltb_lt in E.
  destruct (Qlt_bool _ _); [|auto].
  rewrite length_app; simpl; split; [lia|].
  apply Forall_app; split; [exact Hv|]; constructor; [|constructor]; simpl.
  destruct (Qlt_bool _ _); auto.
Qed.

Lemma reachable_board st : host_reachable st -> board_ok st.
Proof.
  induction 1 as [id name sk | st rx ry name sk src st' out _ IH Hj
                 | st myId keys lv time r st' lv' sent trig _ IH Hg
                 | st myId keys lv time r st' sent w _ IH Hg | st ev _ IH].
  - split; [simpl; lia|]; split; [constructor|]; repeat constructor; simpl; lia.
  - simpl in Hj; injection Hj as <- _; destruct IH as (H1 & H2 & H3).
    split; [exact H1|]; split; [exact H2|]; simpl.
    apply Forall_values_insert; [exact H3 | simpl; lia].
  - destruct IH as (H1 & H2 & H3).
    pose proof (host_input_step_fields st myId keys) as (Hp & _).
    apply gameLoop_host_next in Hg as (_ & Hps & Hprs & _).
    rewrite collide_spec in Hprs; cbn [snd] in Hprs; rewrite Hp in Hprs.
    assert (Hv : Forall (fun pr => (0 <= value pr)%Z) (presents st)).
    { eapply Forall_impl; [|exact H2]; intros pr [-> | ->]; lia. }
    destruct (spawn_ok r (filter (unclaimed (players (host_input_step st myId keys))) (presents st)))
      as [S1 S2].
    + pose proof (filter_length (unclaimed (players (host_input_step st myId keys))) (presents st)); lia.
    + apply Forall_filter_keep, H2.
    + split; [rewrite Hprs; exact S1|]; split; [rewrite Hprs; exact S2|].
      rewrite Hps; apply collide_scores_nonneg; [rewrite Hp; exact Hv|].
      apply host_input_step_values; [intros p x y Hq; exact Hq | exact H3].
  - destruct IH as (H1 & H2 & H3).
    pose proof (host_input_step_fields st myId keys) as (Hp & _).
    apply gameLoop_host_over in Hg as (-> & _); unfold board_ok; simpl.
    rewrite Hp; split; [exact H1|]; split; [exact H2|].
    apply host_input_step_values; [intros p x y Hq; exact Hq | exact H3].
  - exact IH.
Qed.

(** X5.  In every reachable host state there are at most 10 presents,
    each worth 1 or 5 points, and no player's score is negative. *)
Theorem reachable_board_invariant st :
  host_reachable st ->
  (length (presents st) <= 10)%nat /\
  Forall (fun pr => value pr = 1%Z \/ value pr = 5%Z) (presents st) /\
  Forall (fun p => (0 <= score p)%Z) (values (players st)).
Proof. exact (reachable_board st). Qed.

Lemma reachable_board_invariant_witness :
  (length (presents joined) <= 10)%nat /\
  Forall (fun pr => value pr = 1%Z \/ value pr = 5%Z) (presents joined) /\
  Forall (fun p => (0 <= score p)%Z) (values (players joined)).
Proof.
  apply reachable_board_invariant.
  eapply hr_join; [apply hr_init | reflexivity].
Defined.

(** ** Scores across a frame *)

Lemma collide_lookup_score e ps prs k p :
  Forall (fun pr => (0 <= value pr)%Z) prs -> lookup k ps = Some p ->
  exists p', lookup k (fst (collide e ps prs)) = Some p' /\ (score p <= score p')%Z.
Proof.
  revert prs; induction ps as [|[j w] ps IH]; intros prs Hv Hl; simpl in *; [discriminate|].
  rewrite filter_hits_spec.
  pose proof (IH (filter (fun pr => negb (hit w pr)) prs) (Forall_filter_keep _ _ _ Hv)) as IH'.
  destruct (collide e ps (filter (fun pr => negb (hit w pr)) prs)) as [rest prs''].
  simpl in *; destruct (String.eqb k j).
  - injection Hl as <-; eexists; split; [reflexivity|]; simpl.
    pose proof (sumZ_points_nonneg e (filter (hit w) prs) (Forall_filter_keep _ _ _ Hv)); lia.
  - exact (IH' Hl).
Qed.

Lemma host_input_step_lookup_score st myId keys k :
  option_map score (lookup k (players (host_input_step st myId keys))) =
  option_map score (lookup k (players st)).
Proof.
  destruct (String.eqb k myId) eqn:E.
  - apply String.eqb_eq in E; subst k; unfold host_input_step.
    destruct (local_input st myId keys) as [dx dy]; destruct (negb _); [|reflexivity].
    unfold host_apply_input; destruct (lookup myId (players st)) as [p|] eqn:Hl;
      [|rewrite Hl; reflexivity].
    cbn [players with_players]; rewrite lookup_insert_eq, ?Hl; reflexivity.
  - rewrite host_input_step_other; [reflexivity|].
    intros ->; rewrite String.eqb_refl in E; discriminate.
Qed.

(** X6.  A frame that continues the match keeps the player ids, and no
    player's score decreases. *)
Theorem frame_scores_never_decrease st myId keys lv time r st' lv' sent trig :
  host_reachable st ->
  gameLoop true myId keys st lv time r = LoopNext st' lv' sent trig ->
  map fst (players st') = map fst (players st) /\
  (forall k p, lookup k (players st) = Some p ->
     exists p', lookup k (players st') = Some p' /\ (score p <= score p')%Z).
Proof.
  intros Hr Hg.
  destruct (reachable_board st Hr) as (_ & Hv & _).
  pose proof (host_input_step_fields st myId keys) as (Hp & _).
  apply gameLoop_host_next in Hg as (_ & Hps & _).
  split; [rewrite Hps, collide_keys; apply host_input_step_keys|].
  intros k p Hl.
  pose proof (host_input_step_lookup_score st myId keys k) as Hs; rewrite Hl in Hs.
  destruct (lookup k (players (host_input_step st myId keys))) as [p1|] eqn:Hl1; [|discriminate].
  injection Hs as Hs.
  destruct (collide_lookup_score (tick_event (activeEvent (host_input_step st myId keys))
              ((time - lastTime lv) / 1000)) (players (host_input_step st myId keys)) (presents (host_input_step st myId keys)) k p1)
    as (p' & H1 & H2); [rewrite Hp; eapply Forall_impl; [|exact Hv]; intros pr [-> | ->]; lia
                       | exact Hl1 |].
  exists p'; split; [rewrite Hps; exact H1 | lia].
Qed.

(** A present spawned under the host player of a fresh match. *)
Definition spawn_at_host : Rolls := mkRolls 0 "p1" (40#77) (10#19) 0.

Definition one_present : GameState :=
  loop_state (gameLoop true "h" no_keys (initial_state "h" "Host" SANTA) (mkVars 1000 0 0) 1016
                spawn_at_host).

Lemma one_present_reachable : host_reachable one_present.
Proof.
  unfold one_present.
  destruct (gameLoop true "h" no_keys (initial_state "h" "Host" SANTA) (mkVars 1000 0 0) 1016
              spawn_at_host) as [st' sent w | st' lv' sent trig] eqn:H;
    [vm_compute in H; discriminate|].
  simpl; eapply hr_frame; [apply hr_init | exact H].
Qed.

Lemma frame_scores_never_decrease_witness :
  match gameLoop true "h" no_keys one_present (mkVars 1016 0 0) 1032 no_spawn with
  | LoopNext st' lv' sent trig =>
      map fst (players st') = map fst (players one_present) /\
      (forall k p, lookup k (players one_present) = Some p ->
         exists p', lookup k (players st') = Some p' /\ (score p <= score p')%Z)
  | LoopOver _ _ _ => False
  end.
Proof.
  remember (gameLoop true "h" no_keys one_present (mkVars 1016 0 0) 1032 no_spawn) as res eqn:H.
  destruct res as [st' sent w | st' lv' sent trig]; [vm_compute in H; discriminate|].
  exact (frame_scores_never_decrease one_present "h" no_keys (mkVars 1016 0 0) 1032 no_spawn
           st' lv' sent trig one_present_reachable (eq_sym H)).
Defined.

Example one_present_collected :
  match gameLoop true "h" no_keys one_present (mkVars 1016 0 0) 1032 no_spawn with
  | LoopNext st' _ _ _ => map score (values (players st')) = [1%Z] /\ presents st' = [] /\
                          length (presents one_present) = 1%nat
  | LoopOver _ _ _ => False
  end.
Proof. vm_compute; auto. Qed.

(** ** The GAME_OVER screen *)

Lemma lookup_pid ps p : keys_ok ps -> In p (values ps) -> lookup (pid p) ps = Some p.
Proof.
  intros (_ & Hnd & Hf) Hin.
  unfold values in Hin; apply in_map_iff in Hin as ([k q] & Hq & Hin); simpl in Hq; subst q.
  assert (Hk : pid p = k) by (rewrite Forall_forall in Hf; exact (Hf _ Hin)).
  rewrite Hk; clear Hf Hk.
  induction ps as [|[j w] ps IH]; simpl in *; [contradiction|].
  inversion Hnd as [|? ? Hnin Hnd']; subst.
  destruct Hin as [[= -> ->] | Hin].
  - rewrite String.eqb_refl; reflexivity.
  - destruct (String.eqb k j) eqn:E.
    + apply String.eqb_eq in E; subst j; exfalso; apply Hnin.
      apply in_map_iff; exists (k, p); auto.
    + apply IH; auto.
Qed.

(** X7.  When a frame ends the match, the winner [getWinner] names is a
    player with the highest score, and the GAME_OVER screen of the host
    shows that player's skin, name and score. *)
Theorem game_over_screen_shows_top_scorer st myId keys lv time r st' sent w :
  host_reachable st ->
  gameLoop true myId keys st lv time r = LoopOver st' sent w ->
  exists p, In p (values (players st')) /\ pid p = w /\
    (forall q, In q (values (players st')) -> (score q <= score p)%Z) /\
    game_over_view (with_winner st' (Some w)) = (Some (skin p), pname p, score p).
Proof.
  intros Hr Hg.
  assert (Hk : keys_ok (players (with_winner st' (Some w)))).
  { apply reachable_keyed; eapply hr_over; [exact Hr | exact Hg]. }
  cbn [players with_winner] in Hk.
  apply gameLoop_host_over in Hg as (Hst & _ & Hw & _).
  assert (Hp : players st' = players (host_input_step st myId keys)) by (rewrite Hst; reflexivity).
  rewrite <- Hp in Hw.
  destruct (getWinner_first_max (players st')) as (pre & pw & post & Hl & Hgw & H1 & H2).
  { destruct Hk as [Hne _]; unfold values; destruct (players st'); [contradiction | discriminate]. }
  assert (Hin : In pw (values (players st'))) by (rewrite Hl; apply in_or_app; right; left; reflexivity).
  exists pw; split; [exact Hin|]; split; [congruence|]; split.
  - intros q Hq; rewrite Hl in Hq; apply in_app_or in Hq as [Hq | [<- | Hq]].
    + rewrite Forall_forall in H1; specialize (H1 q Hq); lia.
    + lia.
    + rewrite Forall_forall in H2; apply H2, Hq.
  - unfold game_over_view; cbn [winnerId players with_winner].
    rewrite Hw, Hgw, (lookup_pid _ _ Hk Hin); reflexivity.
Qed.

Lemma game_over_screen_shows_top_scorer_witness :
  exists p, In p (values (players (with_time one_present (timeLeft one_present - (200000 - 1016) / 1000)))) /\
    pid p = "h"%string /\
    (forall q, In q (values (players (with_time one_present (timeLeft one_present - (200000 - 1016) / 1000)))) ->
       (score q <= score p)%Z) /\
    game_over_view (with_winner (with_time one_present (timeLeft one_present - (200000 - 1016) / 1000))
                      (Some "h"%string)) = (Some (skin p), pname p, score p).
Proof.
  apply (game_over_screen_shows_top_scorer one_present "h" no_keys (mkVars 1016 0 0) 200000 no_spawn
           _ [] "h" one_present_reachable).
  vm_compute; reflexivity.
Defined.

(** ** Arena bounds across a frame *)

Lemma forallb_in_bounds_positions ps ps' :
  positions ps = positions ps' -> forallb in_bounds (values ps) = forallb in_bounds (values ps').
Proof.
  revert ps'; induction ps as [|[k p] ps IH]; intros [|[k' p'] ps'] H;
    try discriminate; [reflexivity|].
  unfold positions in H; cbn [map fst snd] in H; injection H as _ Hx Hy Hps.
  assert (Hb : in_bounds p = in_bounds p') by (unfold in_bounds; rewrite Hx, Hy; reflexivity).
  cbn [values map forallb snd]; rewrite Hb; f_equal; apply IH, Hps.
Qed.

Lemma clamp_le_bool hi v : 0 <= hi -> Qle_bool 0 (clamp hi v) && Qle_bool (clamp hi v) hi = true.
Proof.
  intros Hhi; destruct (clamp_bounds hi v Hhi) as [H1 H2].
  apply Qle_bool_iff in H1, H2; rewrite H1, H2; reflexivity.
Qed.

Lemma host_input_step_in_bounds st myId keys :
  all_in_bounds st = true -> all_in_bounds (host_input_step st myId keys) = true.
Proof.
  unfold all_in_bounds; intros Hb.
  assert (Hf : Forall (fun p => in_bounds p = true) (values (players st)))
    by (apply Forall_forall, forallb_forall, Hb).
  apply forallb_forall, Forall_forall.
  unfold host_input_step.
  destruct (local_input st myId keys) as [dx dy]; destruct (negb _); [|exact Hf].
  unfold host_apply_input; destruct (lookup myId (players st)) as [p|] eqn:Hl; [|exact Hf].
  cbn [players with_players]; apply Forall_values_insert; [exact Hf|].
  unfold in_bounds; cbn [px py set_pos].
  rewrite <- !andb_assoc.
  rewrite (andb_assoc (Qle_bool _ _)), clamp_le_bool by (unfold CANVAS_WIDTH, PLAYER_SIZE; lra).
  apply clamp_le_bool; unfold CANVAS_HEIGHT, PLAYER_SIZE; lra.
Qed.

(** X8.  If every player is inside the arena before a host frame, every
    player is inside it after the frame. *)
Theorem frame_keeps_players_in_bounds myId keys st lv time r :
  all_in_bounds st = true ->
  all_in_bounds (loop_state (gameLoop true myId keys st lv time r)) = true.
Proof.
  intros Hb; pose proof (host_input_step_in_bounds st myId keys Hb) as H1.
  destruct (gameLoop true myId keys st lv time r) as [st' sent w | st' lv' sent trig] eqn:H; simpl.
  - apply gameLoop_host_over in H as (-> & _); exact H1.
  - apply gameLoop_host_next in H as (_ & Hps & _).
    unfold all_in_bounds in *; rewrite Hps.
    rewrite (forallb_in_bounds_positions _ (players (host_input_step st myId keys)));
      [exact H1 | apply collide_positions].
Qed.

Lemma frame_keeps_players_in_bounds_witness :
  all_in_bounds (loop_state (gameLoop true "h" right_key two_players (mkVars 1000 0 0) 1016 no_spawn))
  = true.
Proof. apply frame_keeps_players_in_bounds; reflexivity. Defined.

(** ** Presents inside the arena *)

Definition present_in_bounds (pr : Present) : bool :=
  Qle_bool 0 (prx pr) && Qle_bool (prx pr) (CANVAS_WIDTH - PRESENT_SIZE) &&
  Qle_bool 0 (pry pr) && Qle_bool (pry pr) (CANVAS_HEIGHT - PRESENT_SIZE).

(** X9.  If the random draws lie in [0,1] and every present is inside the
    arena, every present is still inside the arena after a frame that
    continues the match. *)
Theorem frame_keeps_presents_in_bounds myId keys st lv time r st' lv' sent trig :
  0 <= r_x r <= 1 -> 0 <= r_y r <= 1 ->
  forallb present_in_bounds (presents st) = true ->
  gameLoop true myId keys st lv time r = LoopNext st' lv' sent trig ->
  forallb present_in_bounds (presents st') = true.
Proof.
  intros Hx Hy Hb Hg.
  pose proof (host_input_step_fields st myId keys) as (Hp & _).
  apply gameLoop_host_next in Hg as (_ & _ & Hprs & _).
  rewrite collide_spec in Hprs; cbn [snd] in Hprs; rewrite Hp in Hprs; rewrite Hprs.
  assert (Hf : forallb present_in_bounds
                 (filter (unclaimed (players (host_input_step st myId keys))) (presents st)) = true).
  { apply forallb_forall; intros pr Hin; apply filter_In in Hin as [Hin _].
    rewrite forallb_forall in Hb; apply Hb, Hin. }
  unfold spawn; destruct (Nat.ltb _ _); [|exact Hf].
  destruct (Qlt_bool _ _); [|exact Hf].
  rewrite forallb_app, Hf; simpl.
  unfold present_in_bounds; cbn [prx pry].
  unfold CANVAS_WIDTH, CANVAS_HEIGHT, PRESENT_SIZE.
  destruct Hx as [Hx1 Hx2], Hy as [Hy1 Hy2].
  assert (A1 : 0 <= r_x r * (800 - 30)) by lra.
  assert (A2 : r_x r * (800 - 30) <= 800 - 30) by lra.
  assert (A3 : 0 <= r_y r * (600 - 30)) by lra.
  assert (A4 : r_y r * (600 - 30) <= 600 - 30) by lra.
  apply Qle_bool_iff in A1, A2, A3, A4; rewrite A1, A2, A3, A4; reflexivity.
Qed.

Lemma frame_keeps_presents_in_bounds_witness :
  match gameLoop true "h" no_keys (initial_state "h" "Host" SANTA) (mkVars 1000 0 0) 1016
          spawn_at_host with
  | LoopNext st' _ _ _ => forallb present_in_bounds (presents st') = true
  | LoopOver _ _ _ => False
  end.
Proof.
  remember (gameLoop true "h" no_keys (initial_state "h" "Host" SANTA) (mkVars 1000 0 0) 1016
              spawn_at_host) as res eqn:H.
  destruct res as [st' sent w | st' lv' sent trig]; [vm_compute in H; discriminate|].
  apply (frame_keeps_presents_in_bounds "h" no_keys (initial_state "h" "Host" SANTA)
           (mkVars 1000 0 0) 1016 spawn_at_host st' lv' sent trig);
    [split; apply Qle_bool_iff; reflexivity | split; apply Qle_bool_iff; reflexivity
    | reflexivity | exact (eq_sym H)].
Defined.

(** ** The event timer and the periodic trigger *)

Lemma gameLoop_host_trig myId keys st lv time r st' lv' sent trig :
  gameLoop true myId keys st lv time r = LoopNext st' lv' sent trig ->
  trig = (match activeEvent st' with None => true | Some _ => false end &&
          Z.ltb 0 (Qfloor (GAME_DURATION - timeLeft st')) &&
          Z.eqb (Z.modulo (Qfloor (GAME_DURATION - timeLeft st')) 30) 0 &&
          Qlt_bool 5000 (time - lastEventTrigger lv)) /\
  lastEventTrigger lv' = (if trig then time else lastEventTrigger lv).
Proof.
  intros H.
  unfold gameLoop in H.
  destruct (local_input st myId keys) as [dx dy].
  destruct (negb _) eqn:Hmv; cbv beta iota zeta in H;
  [set (s1 := host_apply_input st myId (dx, dy)) in * | set (s1 := st) in *];
  simpl_state;
  (destruct (Qle_bool _ 0) eqn:Hle; [discriminate|]);
  destruct (collide _ _ _) as [ps4 prs4] eqn:Hc;
  rewrite lastNetworkUpdate_trig in H.
  all: set (tb := _ && _ && _ && _) in H; pose proof (eq_refl tb) as Htb; unfold tb at 2 in Htb;
    clearbody tb.
  all: destruct (Qlt_bool 40 _) eqn:Hb.
  all: injection H as <- <- <- <-; simpl_state.
  all: split; [exact Htb|].
  all: destruct tb; reflexivity.
Qed.

(** X10.  A frame that continues the match advances the event timer: no
    event stays absent; an active event is cleared when its remaining
    duration drops to 0 or below, and otherwise keeps name, description,
    type and the active flag with the duration reduced by the elapsed
    seconds; an inactive event is kept as is and triggers nothing. *)
Theorem frame_event_timer myId keys st lv time r st' lv' sent trig :
  gameLoop true myId keys st lv time r = LoopNext st' lv' sent trig ->
  let dt := (time - lastTime lv) / 1000 in
  match activeEvent st with
  | None => activeEvent st' = None
  | Some e =>
      if active e then
        (duration e - dt <= 0 /\ activeEvent st' = None) \/
        (0 < duration e - dt /\
         activeEvent st' =
           Some (mkEvent (ev_name e) (ev_description e) (ev_type e) (duration e - dt) true))
      else activeEvent st' = Some e /\ trig = false
  end.
Proof.
  intros H dt.
  pose proof (host_input_step_fields st myId keys) as (_ & He & _).
  pose proof (gameLoop_host_trig _ _ _ _ _ _ _ _ _ _ H) as [Ht _].
  apply gameLoop_host_next in H as (_ & _ & _ & He' & _).
  rewrite He in He'; fold dt in He'.
  destruct (activeEvent st) as [e|]; [|exact He'].
  unfold tick_event in He'.
  destruct (active e) eqn:Ha.
  - destruct (Qle_bool (duration e - dt) 0) eqn:Hq.
    + left; split; [apply Qle_bool_iff, Hq | exact He'].
    + right; split; [|exact He'].
      apply Qnot_le_lt; intros Hle; apply Qle_bool_iff in Hle; congruence.
  - split; [exact He'|]; rewrite Ht, He'; reflexivity.
Qed.

Lemma frame_event_timer_witness :
  match gameLoop true "h" no_keys (with_event two_players (Some INITIAL_EVENT)) (mkVars 1000 0 0)
          1016 no_spawn with
  | LoopNext st' lv' sent trig =>
      let dt := (1016 - lastTime (mkVars 1000 0 0)) / 1000 in
      match activeEvent (with_event two_players (Some INITIAL_EVENT)) with
      | None => activeEvent st' = None
      | Some e =>
          if active e then
            (duration e - dt <= 0 /\ activeEvent st' = None) \/
            (0 < duration e - dt /\
             activeEvent st' =
               Some (mkEvent (ev_name e) (ev_description e) (ev_type e) (duration e - dt) true))
          else activeEvent st' = Some e /\ trig = false
      end
  | LoopOver _ _ _ => False
  end.
Proof.
  remember (gameLoop true "h" no_keys (with_event two_players (Some INITIAL_EVENT))
              (mkVars 1000 0 0) 1016 no_spawn) as res eqn:H.
  destruct res as [st' sent w | st' lv' sent trig]; [vm_compute in H; discriminate|].
  exact (frame_event_timer "h" no_keys (with_event two_players (Some INITIAL_EVENT))
           (mkVars 1000 0 0) 1016 no_spawn st' lv' sent trig (eq_sym H)).
Defined.

(** X11.  When a frame triggers a chaos event, no event is active, the
    elapsed match time lies in [30,31), [60,61) or [90,91) seconds, more than
    5000 ms have passed since the previous trigger, and the trigger time is
    recorded. *)
Theorem trigger_windows myId keys st lv time r st' lv' sent :
  gameLoop true myId keys st lv time r = LoopNext st' lv' sent true ->
  let t := GAME_DURATION - timeLeft st' in
  activeEvent st' = None /\
  ((30 <= t < 31) \/ (60 <= t < 61) \/ (90 <= t < 91)) /\
  5000 < time - lastEventTrigger lv /\ lastEventTrigger lv' = time.
Proof.
  intros H t.
  pose proof (gameLoop_host_trig _ _ _ _ _ _ _ _ _ _ H) as [Ht Hl].
  apply gameLoop_host_next in H as (Hle & _ & _ & _ & Htl & _).
  fold t in Ht.
  symmetry in Ht; apply andb_prop in Ht as [Ht H4]; apply andb_prop in Ht as [Ht H3];
    apply andb_prop in Ht as [H1 H2].
  split; [destruct (activeEvent st'); [discriminate | reflexivity]|].
  split; [|split; [apply Qlt_bool_true, H4 | exact Hl]].
  apply Z.ltb_lt in H2; apply Z.eqb_eq in H3.
  assert (Hpos : 0 < timeLeft st').
  { rewrite Htl; apply Qnot_le_lt; intros Hq; apply Qle_bool_iff in Hq; congruence. }
  assert (Ht120 : t < 120) by (unfold t, GAME_DURATION; lra).
  pose proof (Qfloor_le t) as F1; pose proof (Qlt_floor t) as F2.
  assert (Hn : (Qfloor t < 120)%Z).
  { rewrite Zlt_Qlt; eapply Qle_lt_trans; [exact F1 | exact Ht120]. }
  clearbody t.
  assert (Hc : (Qfloor t = 30 \/ Qfloor t = 60 \/ Qfloor t = 90)%Z) by (clear -H2 H3 Hn; pose proof (Z.div_mod (Qfloor t) 30); lia).
  destruct Hc as [E | [E | E]]; rewrite E in F1, F2;
    [left | right; left | right; right]; split; assumption.
Qed.

Definition event_window : GameState := with_time two_players (179#2).

Lemma trigger_windows_witness :
  match gameLoop true "h" no_keys event_window (mkVars 9984 0 0) 10000 no_spawn with
  | LoopNext st' lv' sent true =>
      let t := GAME_DURATION - timeLeft st' in
      activeEvent st' = None /\
      ((30 <= t < 31) \/ (60 <= t < 61) \/ (90 <= t < 91)) /\
      5000 < 10000 - lastEventTrigger (mkVars 9984 0 0) /\ lastEventTrigger lv' = 10000
  | _ => False
  end.
Proof.
  remember (gameLoop true "h" no_keys event_window (mkVars 9984 0 0) 10000 no_spawn) as res eqn:H.
  destruct res as [st' sent w | st' lv' sent [|]]; try (vm_compute in H; discriminate).
  exact (trigger_windows "h" no_keys event_window (mkVars 9984 0 0) 10000 no_spawn st' lv' sent
           (eq_sym H)).
Defined.

(** The wall-clock times at which the host calls [triggerGeminiEvent]. *)
Fixpoint trigger_times (myId : string) (st : GameState) (lv : LoopVars)
    (evs : list LoopEvent) : list Q :=
  match evs with
  | [] => []
  | EventInstalled ev now :: evs' =>
      trigger_times myId (with_event st (Some ev)) (restart_vars now) evs'
  | Frame time keys r :: evs' =>
      match gameLoop true myId keys st lv time r with
      | LoopOver _ _ _ => []
      | LoopNext st' lv' _ trig =>
          if trig then time :: trigger_times myId st' lv' evs'
          else trigger_times myId st' lv' evs'
      end
  end.

Fixpoint spaced_by (gap last : Q) (ts : list Q) : Prop :=
  match ts with
  | [] => True
  | t :: ts' => gap < t - last /\ spaced_by gap t ts'
  end.

(** X12.  Within one run of the loop effect, consecutive chaos event
    triggers are more than 5000 ms apart. *)
Theorem triggers_spaced_one_run myId st lv evs :
  no_restart evs = true ->
  spaced_by 5000 (lastEventTrigger lv) (trigger_times myId st lv evs).
Proof.
  revert st lv; induction evs as [|[time keys r | ev now] evs IH]; intros st lv Hn;
    simpl in *; [exact I | | discriminate].
  destruct (gameLoop true myId keys st lv time r) as [st' sent w | st' lv' sent trig] eqn:H;
    [exact I|].
  pose proof (gameLoop_host_trig _ _ _ _ _ _ _ _ _ _ H) as [Ht Hl].
  destruct trig.
  - simpl; split.
    + symmetry in Ht; apply andb_prop in Ht as [_ Ht]; apply Qlt_bool_true, Ht.
    + rewrite <- Hl; apply IH, Hn.
  - rewrite <- Hl; apply IH, Hn.
Qed.

Lemma triggers_spaced_one_run_witness :
  spaced_by 5000 (lastEventTrigger (mkVars 9984 0 0))
    (trigger_times "h" event_window (mkVars 9984 0 0)
       [Frame 10000 no_keys no_spawn; Frame 10016 no_keys no_spawn]).
Proof. apply triggers_spaced_one_run; reflexivity. Defined.

Example event_window_triggers_once :
  trigger_times "h" event_window (mkVars 9984 0 0)
    [Frame 10000 no_keys no_spawn; Frame 10016 no_keys no_spawn] = [10000].
Proof. vm_compute; reflexivity. Qed.

(** ** A frame of a client *)

Lemma local_input_range st myId keys :
  In (fst (local_input st myId keys)) [-1; 0; 1]%Z /\
  In (snd (local_input st myId keys)) [-1; 0; 1]%Z.
Proof.
  unfold local_input; destruct (lookup myId (players st)); [|simpl; tauto].
  destruct (negb _); [|simpl; tauto].
  destruct (keys "ArrowUp"%string || keys "KeyW"%string),
           (keys "ArrowDown"%string || keys "KeyS"%string),
           (keys "ArrowLeft"%string || keys "KeyA"%string),
           (keys "ArrowRight"%string || keys "KeyD"%string), (event_is st REVERSE_CONTROLS);
    simpl; tauto.
Qed.

(** X13.  A client frame changes neither the game state nor any loop
    variable except [lastTime], triggers nothing, and sends either nothing or
    one INPUT to the host with a non-zero vector in {-1,0,1}^2; it sends
    nothing when the own player is missing or frozen. *)
Theorem client_frame myId keys st lv time r :
  exists sent,
    gameLoop false myId keys st lv time r = LoopNext st (set_lastTime lv time) sent false /\
    (sent = [] \/
     exists dx dy, sent = [ToHost (INPUT dx dy)] /\ (dx <> 0 \/ dy <> 0)%Z /\
                   In dx [-1; 0; 1]%Z /\ In dy [-1; 0; 1]%Z) /\
    (match lookup myId (players st) with
     | Some p => truthy (frozen p) = true
     | None => True
     end -> sent = []).
Proof.
  pose proof (local_input_range st myId keys) as Hr.
  assert (Hz : match lookup myId (players st) with
               | Some p => truthy (frozen p) = true | None => True end ->
               local_input st myId keys = (0%Z, 0%Z)).
  { unfold local_input; destruct (lookup myId (players st)) as [p|]; [|reflexivity].
    intros ->; reflexivity. }
  unfold gameLoop.
  destruct (local_input st myId keys) as [dx dy]; cbn [fst snd] in Hr.
  destruct (negb (Z.eqb dx 0 && Z.eqb dy 0)) eqn:Hmv; cbv beta iota zeta.
  - exists [ToHost (INPUT dx dy)]; split; [reflexivity|]; split.
    + right; exists dx, dy; split; [reflexivity|]; split; [|exact Hr].
      destruct (Z.eqb dx 0) eqn:E1, (Z.eqb dy 0) eqn:E2; try discriminate;
        [right | left | left]; apply Z.eqb_neq; assumption.
    + intros Hf; apply Hz in Hf; injection Hf as -> ->; discriminate.
  - exists []; split; [reflexivity|]; split; [left; reflexivity | intros _; reflexivity].
Qed.

Lemma client_frame_witness :
  exists sent,
    gameLoop false "c" right_key two_players (mkVars 1000 0 0) 1016 no_spawn =
      LoopNext two_players (set_lastTime (mkVars 1000 0 0) 1016) sent false /\
    (sent = [] \/
     exists dx dy, sent = [ToHost (INPUT dx dy)] /\ (dx <> 0 \/ dy <> 0)%Z /\
                   In dx [-1; 0; 1]%Z /\ In dy [-1; 0; 1]%Z) /\
    (match lookup "c" (players two_players) with
     | Some p => truthy (frozen p) = true
     | None => True
     end -> sent = []).
Proof. exact (client_frame "c" right_key two_players (mkVars 1000 0 0) 1016 no_spawn). Defined.

(** ** The join handshake *)

Lemma insert_new {A} k (v : A) m : ~ In k (map fst m) -> insert k v m = m ++ [(k, v)].
Proof.
  induction m as [|[j w] m IH]; intros Hn; simpl in *; [reflexivity|].
  destruct (String.eqb k j) eqn:E.
  - apply String.eqb_eq in E; subst; exfalso; apply Hn; left; reflexivity.
  - rewrite IH; [reflexivity | intros Hi; apply Hn; right; exact Hi].
Qed.

Definition joined_player (c name : string) (sk : PlayerSkin) (rx ry : Q) : Player :=
  mkPlayer c (rx * CANVAS_WIDTH) (ry * CANVAS_HEIGHT) 0 sk name false 0 0 None None.

(** X14.  A JOIN_REQUEST from a new peer appends a score-0 player under
    the peer's id, leaves the rest of the state unchanged, and answers only
    that peer with JOIN_ACCEPT; the client that receives the answer adopts
    exactly the host's new state and records the host id. *)
Theorem join_handshake rx ry name sk c st joinId a :
  ~ In c (map fst (players st)) ->
  let st' := with_players st (players st ++ [(c, joined_player c name sk rx ry)]) in
  host_onMessage rx ry (JOIN_REQUEST name sk) c (Some st) = (Some st', [ToPeer c (JOIN_ACCEPT st' c)]) /\
  forall m, In (ToPeer c m) [ToPeer c (JOIN_ACCEPT st' c)] ->
    ca_gameState (client_onMessage joinId m a) = Some st' /\
    ca_hostId (client_onMessage joinId m a) = joinId /\
    ca_phase (client_onMessage joinId m a) = ca_phase a.
Proof.
  intros Hn st'.
  split.
  - unfold host_onMessage; rewrite insert_new by exact Hn; reflexivity.
  - intros m [Hm | []]; injection Hm as <-; repeat split.
Qed.

Lemma join_handshake_witness :
  ~ In "c"%string (map fst (players (initial_state "h" "Host" SANTA))) /\
  let st' := with_players (initial_state "h" "Host" SANTA)
               (players (initial_state "h" "Host" SANTA) ++
                [("c"%string, joined_player "c" "Guest" ELF (1#2) (1#2))]) in
  host_onMessage (1#2) (1#2) (JOIN_REQUEST "Guest" ELF) "c" (Some (initial_state "h" "Host" SANTA)) =
    (Some st', [ToPeer "c" (JOIN_ACCEPT st' "c")]) /\
  forall m, In (ToPeer "c" m) [ToPeer "c" (JOIN_ACCEPT st' "c")] ->
    ca_gameState (client_onMessage "h" m (mkClientApp GamePhase.LOBBY None "")) = Some st' /\
    ca_hostId (client_onMessage "h" m (mkClientApp GamePhase.LOBBY None "")) = "h"%string /\
    ca_phase (client_onMessage "h" m (mkClientApp GamePhase.LOBBY None "")) =
      ca_phase (mkClientApp GamePhase.LOBBY None "").
Proof.
  assert (Hn : ~ In "c"%string (map fst (players (initial_state "h" "Host" SANTA))))
    by (simpl; intros [H | []]; discriminate).
  split; [exact Hn|].
  exact (join_handshake (1#2) (1#2) "Guest" ELF "c" (initial_state "h" "Host" SANTA) "h"
           (mkClientApp GamePhase.LOBBY None "") Hn).
Defined.

Lemma insert_existing_keys {A} k (v : A) m : In k (map fst m) -> map fst (insert k v m) = map fst m.
Proof.
  intros Hi; destruct (map_fst_insert k v m) as [[_ E] | [Hn _]]; [exact E | contradiction].
Qed.

(** X15.  A JOIN_REQUEST from a peer that is already in the game keeps
    the order of the players but replaces that peer's player with a fresh
    score-0 player; all other players and fields are unchanged. *)
Theorem rejoin_resets_player rx ry name sk c st st' out :
  In c (map fst (players st)) ->
  host_onMessage rx ry (JOIN_REQUEST name sk) c (Some st) = (Some st', out) ->
  map fst (players st') = map fst (players st) /\
  lookup c (players st') = Some (joined_player c name sk rx ry) /\
  (forall k, k <> c -> lookup k (players st') = lookup k (players st)) /\
  presents st' = presents st /\ activeEvent st' = activeEvent st /\
  timeLeft st' = timeLeft st /\ winnerId st' = winnerId st.
Proof.
  intros Hi H; unfold host_onMessage in H; injection H as <- _; simpl_state.
  split; [apply insert_existing_keys, Hi|].
  split; [apply lookup_insert_eq|].
  split; [intros k Hk; apply lookup_insert_ne, Hk|].
  repeat split.
Qed.

Lemma rejoin_resets_player_witness :
  In "c"%string (map fst (players two_players)) /\
  match host_onMessage (1#2) (1#2) (JOIN_REQUEST "Again" REINDEER) "c" (Some two_players) with
  | (Some st', out) =>
      map fst (players st') = map fst (players two_players) /\
      lookup "c" (players st') = Some (joined_player "c" "Again" REINDEER (1#2) (1#2)) /\
      (forall k, k <> "c"%string -> lookup k (players st') = lookup k (players two_players)) /\
      presents st' = presents two_players /\ activeEvent st' = activeEvent two_players /\
      timeLeft st' = timeLeft two_players /\ winnerId st' = winnerId two_players
  | (None, _) => False
  end.
Proof.
  assert (Hi : In "c"%string (map fst (players two_players))) by (simpl; tauto).
  split; [exact Hi|].
  remember (host_onMessage (1#2) (1#2) (JOIN_REQUEST "Again" REINDEER) "c" (Some two_players))
    as res eqn:H.
  destruct res as [[st'|] out]; [|vm_compute in H; discriminate].
  exact (rejoin_resets_player (1#2) (1#2) "Again" REINDEER "c" two_players st' out Hi (eq_sym H)).
Defined.

(** ** The client session *)

(** The winner of the last [GAME_OVER] of a sequence of messages. *)
Fixpoint last_game_over (msgs : list NetworkMessage) : option string :=
  match msgs with
  | [] => None
  | m :: ms =>
      match last_game_over ms with
      | Some w => Some w
      | None => match m with GAME_OVER w => Some w | _ => None end
      end
  end.

(** The state of the last [GAME_UPDATE] of a sequence of messages. *)
Fixpoint last_update (msgs : list NetworkMessage) : option GameState :=
  match msgs with
  | [] => None
  | m :: ms =>
      match last_update ms with
      | Some gs => Some gs
      | None => match m with GAME_UPDATE gs => Some gs | _ => None end
      end
  end.

Lemma client_session_spec msgs cv a :
  let '(cv', a') := client_session msgs (cv, a) in
  ca_hostId a' = ca_hostId a /\
  ca_phase a' = match last_game_over msgs with Some _ => GamePhase.GAME_OVER | None => ca_phase a end /\
  ca_gameState a' =
    match last_game_over msgs with
    | Some w => option_map (fun gs => with_winner gs (Some w)) (ca_gameState a)
    | None => ca_gameState a
    end /\
  cv' = match last_update msgs with
        | Some gs => mkCanvas gs (name_or_null (activeEvent gs)) (desc_or_null (activeEvent gs))
                       (timeLeft gs)
        | None => cv
        end.
Proof.
  revert cv a; induction msgs as [|m ms IH]; intros cv a; [simpl; auto|].
  unfold client_session; cbn [fold_left]; fold (client_session ms (client_session_step (cv, a) m)).
  destruct (client_session_step (cv, a) m) as [cv1 a1] eqn:Hs.
  specialize (IH cv1 a1).
  destruct (client_session ms (cv1, a1)) as [cv' a'].
  destruct IH as (Hh & Hp & Hg & Hc).
  cbn [last_game_over last_update].
  unfold client_session_step, canvas_onMessage, handleGameOver in Hs.
  destruct m; injection Hs as <- <-; cbn [ca_hostId ca_phase ca_gameState] in *;
    rewrite Hh, Hp, Hg, Hc;
    (destruct (last_game_over ms), (last_update ms); repeat split;
     try reflexivity;
     try (destruct (ca_gameState a); reflexivity)).
Qed.

(** X16.  Once the canvas is mounted, the messages a client receives
    change its App state only through the last GAME_OVER: the phase becomes
    GAME_OVER and the winner id is set, while the host id and the rest of the
    stored game state stay as they were. *)
Theorem client_session_app msgs cv a :
  let a' := snd (client_session msgs (cv, a)) in
  ca_hostId a' = ca_hostId a /\
  ca_phase a' = match last_game_over msgs with Some _ => GamePhase.GAME_OVER | None => ca_phase a end /\
  ca_gameState a' =
    match last_game_over msgs with
    | Some w => option_map (fun gs => with_winner gs (Some w)) (ca_gameState a)
    | None => ca_gameState a
    end.
Proof.
  pose proof (client_session_spec msgs cv a) as H.
  destruct (client_session msgs (cv, a)) as [cv' a']; cbn [snd].
  destruct H as (H1 & H2 & H3 & _); auto.
Qed.

(** X17.  The client canvas shows the state, the remaining time and the
    event name of the last GAME_UPDATE received, and nothing changes it when
    no GAME_UPDATE arrives. *)
Theorem client_session_view msgs cv a :
  let cv' := fst (client_session msgs (cv, a)) in
  match last_update msgs with
  | Some gs => cv_ref cv' = gs /\ cv_timeLeft cv' = timeLeft gs /\
               cv_eventName cv' = name_or_null (activeEvent gs)
  | None => cv' = cv
  end.
Proof.
  pose proof (client_session_spec msgs cv a) as H.
  destruct (client_session msgs (cv, a)) as [cv' a']; cbn [fst].
  destruct H as (_ & _ & _ & H); rewrite H.
  destruct (last_update msgs); [repeat split | reflexivity].
Qed.

(** ** The peer service *)

(** X18.  After a connection closes, every connection to the same peer is
    dropped and the others are kept, and no broadcast, sendToPeer or
    sendToHost reaches that peer any more. *)
Theorem close_forgets_peer s conn m :
  let s' := on_close s conn in
  (forall c, In c (connections s') <-> In c (connections s) /\ conn_peer c <> conn_peer conn) /\
  Forall (fun x => fst x <> conn_peer conn) (broadcast s' m) /\
  sendToPeer s' (conn_peer conn) m = [] /\
  Forall (fun x => fst x <> conn_peer conn) (sendToHost s' m) /\
  has_peer s' = has_peer s.
Proof.
  intros s'.
  assert (Hc : forall c, In c (connections s') <-> In c (connections s) /\ conn_peer c <> conn_peer conn).
  { intros c; unfold s', on_close; cbn [connections]; rewrite filter_In.
    rewrite negb_true_iff, String.eqb_neq; reflexivity. }
  split; [exact Hc|].
  split.
  - unfold broadcast; apply Forall_forall; intros [p m'] Hin.
    apply in_flat_map in Hin as [c [Hc' Hin]].
    destruct (conn_open c); [|destruct Hin].
    destruct Hin as [Hin | []]; injection Hin as <- _; apply Hc, Hc'.
  - split; [|split; [|reflexivity]].
    + unfold sendToPeer.
      destruct (find _ _) as [c|] eqn:Hf; [|reflexivity].
      apply find_some in Hf as [Hin He]; apply String.eqb_eq in He.
      apply Hc in Hin as [_ Hne]; contradiction.
    + unfold s', on_close, sendToHost; cbn [hostConnection].
      destruct (hostConnection s) as [h|]; [|constructor].
      destruct (String.eqb (conn_peer h) (conn_peer conn)) eqn:E; [constructor|].
      destruct (conn_open h); repeat constructor.
      apply String.eqb_neq, E.
Qed.

(** X19.  [sendToPeer] uses the first connection to the peer: if that
    connection is closed it sends nothing, even when a later connection to
    the same peer is open. *)
Theorem sendToPeer_first_match s P m pre c post :
  connections s = pre ++ c :: post ->
  Forall (fun d => conn_peer d <> P) pre ->
  conn_peer c = P ->
  sendToPeer s P m = if conn_open c then [(P, m)] else [].
Proof.
  intros Hs Hpre Hc; unfold sendToPeer; rewrite Hs; clear Hs.
  induction Hpre as [|d pre Hd Hpre IH]; cbn [app find].
  - rewrite Hc, String.eqb_refl, Hc; reflexivity.
  - apply String.eqb_neq in Hd; rewrite Hd; exact IH.
Qed.

Definition stale_then_open : PeerService :=
  mkPeerService true [mkConn "c" false; mkConn "c" true] None.

Lemma sendToPeer_first_match_witness :
  sendToPeer stale_then_open "c" START_GAME = [].
Proof.
  exact (sendToPeer_first_match stale_then_open "c" START_GAME [] (mkConn "c" false)
           [mkConn "c" true] eq_refl (Forall_nil _) eq_refl).
Defined.

(** X20.  A new incoming connection receives broadcasts after all earlier
    connections, and only while it is open; it does not change the host
    connection. *)
Theorem connection_then_broadcast s c m :
  broadcast (on_connection s c) m =
    broadcast s m ++ (if conn_open c then [(conn_peer c, m)] else []) /\
  sendToHost (on_connection s c) m = sendToHost s m.
Proof.
  unfold broadcast, on_connection; cbn [connections hostConnection].
  rewrite flat_map_app; cbn [flat_map]; rewrite app_nil_r; split; reflexivity.
Qed.

(** X21.  With an initialised peer, a successful [connectToHost] makes
    [sendToHost] send to that host and leaves broadcasts unchanged; a failed
    one rejects with the error and leaves the service unchanged. *)
Theorem connect_then_send s hostId m err :
  has_peer s = true ->
  (exists s', connectToHost s hostId ConnOpened = (s', None) /\
              sendToHost s' m = [(hostId, m)] /\ broadcast s' m = broadcast s m) /\
  connectToHost s hostId (ConnFailed err) = (s, Some err).
Proof.
  intros Hp; unfold connectToHost; rewrite Hp; split; [|reflexivity].
  eexists; split; [reflexivity|]; split; reflexivity.
Qed.

Lemma connect_then_send_witness :
  has_peer stale_then_open = true /\
  (exists s', connectToHost stale_then_open "h" ConnOpened = (s', None) /\
              sendToHost s' START_GAME = [("h"%string, START_GAME)] /\
              broadcast s' START_GAME = broadcast stale_then_open START_GAME) /\
  connectToHost stale_then_open "h" (ConnFailed "unavailable") =
    (stale_then_open, Some "unavailable"%string).
Proof.
  split; [reflexivity|].
  exact (connect_then_send stale_then_open "h" START_GAME "unavailable" eq_refl).
Defined.

(** X22.  After [cleanup] nothing can be sent, and [connectToHost] is
    rejected with "Peer not initialized". *)
Theorem cleanup_silences s hostId ev m P :
  broadcast (cleanup s) m = [] /\ sendToPeer (cleanup s) P m = [] /\
  sendToHost (cleanup s) m = [] /\
  connectToHost (cleanup s) hostId ev = (cleanup s, Some "Peer not initialized"%string).
Proof.
  unfold cleanup, sendToHost; cbn [hostConnection].
  repeat split; destruct (hostConnection s); reflexivity.
Qed.

(** X23.  On a client, the GAME_OVER screen shows the winner as found in
    the game state the App stored at join time: GAME_UPDATE messages never
    reach it, so the screen shows the winner's score as of the join. *)
Theorem client_game_over_screen msgs cv a gs w :
  ca_gameState a = Some gs ->
  last_game_over msgs = Some w ->
  exists gs', ca_gameState (snd (client_session msgs (cv, a))) = Some gs' /\
    game_over_view gs' =
      match lookup w (players gs) with
      | Some p => (Some (skin p), pname p, score p)
      | None => (None, "Nobody"%string, 0%Z)
      end.
Proof.
  intros Ha Hw.
  pose proof (client_session_spec msgs cv a) as H.
  destruct (client_session msgs (cv, a)) as [cv' a']; cbn [snd].
  destruct H as (_ & _ & H & _); rewrite Hw, Ha in H.
  eexists; split; [exact H|]; reflexivity.
Qed.

Definition client_joined : ClientApp := mkClientApp GamePhase.PLAYING (Some two_players) "h".

Definition scored_update : GameState :=
  with_players two_players (insert "c" (set_score client_c 7)
                              (players two_players)).

Lemma client_game_over_screen_witness :
  exists gs', ca_gameState (snd (client_session [GAME_UPDATE scored_update; GAME_OVER "c"]
                                   (mkCanvas two_players None None GAME_DURATION, client_joined))) = Some gs' /\
    game_over_view gs' =
      match lookup "c" (players two_players) with
      | Some p => (Some (skin p), pname p, score p)
      | None => (None, "Nobody"%string, 0%Z)
      end.
Proof.
  exact (client_game_over_screen [GAME_UPDATE scored_update; GAME_OVER "c"]
           (mkCanvas two_players None None GAME_DURATION) client_joined two_players "c" eq_refl eq_refl).
Defined.

(** The client's end screen shows the score of its join-time snapshot,
    though the last update reported 7. *)
Example client_end_screen_stale :
  option_map game_over_view
    (ca_gameState (snd (client_session [GAME_UPDATE scored_update; GAME_OVER "c"]
                          (mkCanvas two_players None None GAME_DURATION, client_joined)))) =
    Some (Some ELF, "Guest"%string, 0%Z) /\
  lookup "c" (players scored_update) = Some (set_score client_c 7).
Proof. split; vm_compute; reflexivity. Qed.

(** ** C7: a present collected across a state copy *)

(** [handleTriggerGemini] (App.tsx 163-166) stores the shallow copy
    [{ ...prev, activeEvent: event }] of the live object [prev].  The copy
    shares the [players] record, and so every player object, with [prev].
    Until the effect of part_000 lines 53-55 switches [gameStateRef] to the
    copy, the loop keeps running on [prev]: it moves and scores the shared
    player objects in place, but gives [prev] a new [presents] array
    ([state.presents = state.presents.filter(...)], run once per player;
    the spawner then pushes onto that new array), and assigns [timeLeft]
    and [activeEvent] on [prev] only.  When the switch comes, the loop sees
    the players as [prev] left them and everything else as copied. *)
Definition ref_switch (copy live : GameState) : GameState :=
  mkState (players live) (presents copy) (activeEvent copy) (timeLeft copy) (winnerId copy).

(** C7 (code_bug).  In the reachable state [one_present] the host player
    overlaps one present worth 1.  A fetched event is installed, so [App]
    holds the copy [N].  One frame still runs on the old object: the host
    collects the present (score 1, no presents left).  Then [gameStateRef]
    switches to [N], and the loop restarts with fresh loop variables
    (part_000 lines 70-74).  In that next tick the collected present is
    back in the collection, and the host is awarded its point a second
    time (score 2). *)
Theorem C7_copy_race_double_award :
  host_reachable one_present /\
  match install_event sample_event (Some one_present) with
  | Some N =>
      match gameLoop true "h" no_keys one_present (mkVars 1016 0 0) 1032 no_spawn with
      | LoopNext O1 _ _ _ =>
          let S := ref_switch N O1 in
          match gameLoop true "h" no_keys S (restart_vars 1040) 1056 no_spawn with
          | LoopNext S2 _ _ _ =>
              map value (presents one_present) = [1%Z] /\
              map score (values (players one_present)) = [0%Z] /\
              presents O1 = [] /\ map score (values (players O1)) = [1%Z] /\
              presents S = presents one_present /\
              presents S2 = [] /\ map score (values (players S2)) = [2%Z]
          | LoopOver _ _ _ => False
          end
      | LoopOver _ _ _ => False
      end
  | None => False
  end.
Proof.
  split; [exact one_present_reachable|].
  vm_compute; repeat split; reflexivity.
Qed.

